(** * Sort-based aggregate task spec

    A shallow embedding of
    [python/ray/data/_internal/planner/exchange/aggregate_task_spec.py]:
    the three static methods of [SortAggregateTaskSpec] ([map], [reduce] and
    [_prune_unused_columns]) written over the [BlockAccessor] interface they
    call, a reference implementation of that interface, and the properties of
    the specification that concern them. *)

From stdpp Require Import base numbers strings list list_monad gmap sorting lexico.

Open Scope Z_scope.

(** ** Exceptions and the task monad *)

(** The Python exceptions that can leave the modelled code. [IndexError] is
    the one raised by the source itself ([normalized_blocks[0]]); the others
    are what the collaborators signal. *)
Inductive exn : Type :=
  | IndexError
  | KeyError (column : string)
  | ValueError (msg : string).

Inductive result (A : Type) : Type :=
  | Ok (a : A)
  | Raise (e : exn).
Arguments Ok {A} a.
Arguments Raise {A} e.

Global Instance result_ret : MRet result := λ A a, Ok a.
Global Instance result_bind : MBind result := λ A B f m,
  match m with
  | Ok a => f a
  | Raise e => Raise e
  end.
Global Instance result_fmap : FMap result := λ A B f m,
  match m with
  | Ok a => Ok (f a)
  | Raise e => Raise e
  end.

(** [d[k]] on a Python dict: the value, or [KeyError]. *)
Definition getitem (row : gmap string Z) (column : string) : result Z :=
  match row !! column with
  | Some v => Ok v
  | None => Raise (KeyError column)
  end.

(** The part of the outside world the tasks observe: the clock that
    [BlockExecStats] reads. [timeline n] is the value of the [n]-th reading
    and [ticks] counts the readings taken so far. *)
Record World : Type := mkWorld {
  timeline : nat → Z;
  ticks : nat;
}.

(** A task is a computation that may read the clock and may raise. *)
Definition Task (A : Type) : Type := World → result (A * World).

Global Instance Task_ret : MRet Task := λ A a w, Ok (a, w).
Global Instance Task_bind : MBind Task := λ A B f m w,
  match m w with
  | Ok (a, w') => f a w'
  | Raise e => Raise e
  end.

(** A computation that does not touch the clock, run inside a task. *)
Definition lift {A} (m : result A) : Task A := λ w,
  match m with
  | Ok a => Ok (a, w)
  | Raise e => Raise e
  end.

Definition perf_counter : Task Z := λ w,
  Ok (timeline w (ticks w), mkWorld (timeline w) (S (ticks w))).

(** ** Data model *)

(** A row maps column names to integer cells; a key value is the tuple of the
    key columns' cells, ordered as Python orders tuples. *)
Abbreviation Row := (gmap string Z).
Abbreviation KeyType := (list Z).

(** The Python values that reach the [key] parameter (and an aggregate's
    [_key_fn]): [None], a [str], a [list] of [str], or a callable. The
    callable is opaque: the source only asks whether it is one. *)
Inductive Key : Type :=
  | KNone
  | KStr (column : string)
  | KList (columns : list string)
  | KCallable.

Global Instance Key_eq_dec : EqDecision Key.
Proof. solve_decision. Defined.

(** [SortKey(key)], the wrapper handed to [sort_and_partition]. *)
Record SortKey : Type := mkSortKey { sort_key_columns : Key }.

(** Where an aggregate sits in the class hierarchy of
    [ray.data._internal.aggregate]: under [_AggregateOnKeyBase] (with its
    [_key_fn] attribute), [Count], or another [AggregateFn]. *)
Inductive AggregateKind : Type :=
  | AggregateOnKeyBase (_key_fn : Key)
  | Count
  | Custom.

(** An [AggregateFn]: its class, its output column name and its opaque
    accumulate / merge / finalize operations over an integer partial state. *)
Record AggregateFn : Type := mkAggregateFn {
  agg_kind : AggregateKind;
  name : string;
  init : KeyType → Z;
  accumulate_row : Z → Row → Z;
  merge : Z → Z → Z;
  finalize : Z → Z;
}.

(** [isinstance(agg, _AggregateOnKeyBase) and isinstance(agg._key_fn, str)],
    returning the column when the test holds. *)
Definition on_key_str (agg : AggregateFn) : option string :=
  match agg_kind agg with
  | AggregateOnKeyBase (KStr column) => Some column
  | _ => None
  end.

(** [isinstance(agg, Count)]. *)
Definition isinstance_Count (agg : AggregateFn) : bool :=
  match agg_kind agg with
  | Count => true
  | _ => false
  end.

(** Modelled from the spec: [BlockExecStats] and its builder are not in the
    source file. The spec describes them as the execution timing of a task;
    the builder reads the clock when it is created and again when it is
    built. *)
Record BlockExecStats : Type := mkBlockExecStats { wall_time_s : Z }.

Record BlockExecStatsBuilder : Type := mkBuilder { start_time : Z }.

Definition BlockExecStats_builder : Task BlockExecStatsBuilder :=
  t ← perf_counter; mret (mkBuilder t).

Definition build (b : BlockExecStatsBuilder) : Task BlockExecStats :=
  t ← perf_counter; mret (mkBlockExecStats (t - start_time b)).

(** Modelled from the spec: [BlockMetadata] is not in the source file. The
    spec describes it as a statistics envelope (row count, byte size,
    execution timing) attached to a block. *)
Record BlockMetadata : Type := mkBlockMetadata {
  meta_num_rows : Z;
  meta_size_bytes : Z;
  exec_stats : BlockExecStats;
}.

(** ** The block interface *)

(** The capabilities of [BlockAccessor.for_block(block)] and
    [TableBlockAccessor] that the source calls. Their implementations live
    outside the source file, so the tasks are written over any
    implementation. *)
Class BlockAccessor (Block : Type) : Type := {
  (** [isinstance(block_accessor, TableBlockAccessor)] *)
  isinstance_TableBlockAccessor : Block → bool;
  num_rows : Block → Z;
  size_bytes : Block → Z;
  select : Block → list string → result Block;
  sort_and_partition : Block → list KeyType → SortKey → result (list Block);
  combine : Block → Key → list AggregateFn → result Block;
  normalize_block_types : list Block → string → result (list Block);
  aggregate_combined_blocks :
    Block → list Block → Key → list AggregateFn → bool →
    Task (Block * BlockMetadata);
}.

(** Modelled from the spec: [get_metadata] is not in the source file; it
    fills the envelope with the block's row count and byte size and the
    execution statistics it is given. *)
Definition get_metadata `{BlockAccessor Block}
    (block : Block) (stats : BlockExecStats) : BlockMetadata :=
  mkBlockMetadata (num_rows block) (size_bytes block) stats.

(** ** The source: [SortAggregateTaskSpec] *)

Module SortAggregateTaskSpec.
Section methods.
Context {Block : Type} {accessor : BlockAccessor Block}.

(** One turn of the loop [for agg in aggs] over the pair
    [(prune_columns, columns)]. *)
Definition prune_step (st : bool * gset string) (agg : AggregateFn)
    : bool * gset string :=
  let '(prune_columns, columns) := st in
  match on_key_str agg with
  | Some column => (prune_columns, columns ∪ {[column]})
  | None =>
      if negb (isinstance_Count agg)
      then (false, columns)
      else (prune_columns, columns)
  end.

(** [columns] is the Python set. [list(columns)] hands [select] each of its
    elements once, in an order Python does not fix; [elements columns] is
    one such listing. [BlockAccessor.for_block] is the constructor of the
    accessor, outside the source file: every block is taken with its
    accessor. *)
Definition _prune_unused_columns
    (block : Block) (key : Key) (aggs : list AggregateFn) : result Block :=
  let prune_columns := true in
  let columns : gset string := ∅ in
  let '(prune_columns, columns) :=
    match key with
    | KStr k => (prune_columns, columns ∪ {[k]})           (* columns.add(key) *)
    | KList ks => (prune_columns, columns ∪ list_to_set ks) (* columns.update(key) *)
    | KCallable => (false, columns)                         (* prune_columns = False *)
    | KNone => (prune_columns, columns)
    end in
  let '(prune_columns, columns) :=
    foldl prune_step (prune_columns, columns) aggs in
  if prune_columns
     && isinstance_TableBlockAccessor block
     && bool_decide (0 < num_rows block)
  then select block (elements columns)   (* block_accessor.select(list(columns)) *)
  else Ok block.

Definition map (idx : Z) (block : Block) (output_num_blocks : Z)
    (boundaries : list KeyType) (key : Key) (aggs : list AggregateFn)
    : Task (list (Block + BlockMetadata)) :=
  stats ← BlockExecStats_builder;
  (* the parameter [block] is rebound to the pruned block *)
  block ← lift (_prune_unused_columns block key aggs);
  partitions ← lift (match key with
                     | KNone => Ok [block]
                     | _ => sort_and_partition block boundaries (mkSortKey key)
                     end);
  parts ← lift (mapM (λ p, combine p key aggs) partitions);
  exec_stats ← build stats;
  let meta := get_metadata block exec_stats in
  mret ((inl <$> parts) ++ [inr meta]).

Definition reduce (key : Key) (aggs : list AggregateFn)
    (batch_format : string) (mapper_outputs : list Block)
    (partial_reduce : bool) : Task (Block * BlockMetadata) :=
  normalized_blocks ← lift (normalize_block_types mapper_outputs batch_format);
  match normalized_blocks with
  | [] => lift (Raise IndexError)        (* normalized_blocks[0] *)
  | first :: _ =>
      aggregate_combined_blocks first normalized_blocks key aggs
        (negb partial_reduce)            (* finalize=not partial_reduce *)
  end.
End methods.
End SortAggregateTaskSpec.

(** ** A reference implementation of the block interface *)

Module Reference.

Inductive BlockFormat : Type := Arrow | Pandas.

(** Modelled from the spec: the block representations are not in the source
    file. A block is a table of rows in one of the two tabular formats
    (the ones column selection works on), or a plain list of items without
    columns. *)
Inductive Block : Type :=
  | TableBlock (format : BlockFormat) (rows : list Row)
  | SimpleBlock (items : list Z).

Definition table_rows (block : Block) : result (list Row) :=
  match block with
  | TableBlock _ rows => Ok rows
  | SimpleBlock _ => Raise (ValueError "not a table block")
  end.

Definition table_format (block : Block) : result BlockFormat :=
  match block with
  | TableBlock format _ => Ok format
  | SimpleBlock _ => Raise (ValueError "not a table block")
  end.

Definition ref_isinstance_TableBlockAccessor (block : Block) : bool :=
  match block with
  | TableBlock _ _ => true
  | SimpleBlock _ => false
  end.

(** Modelled from the spec: the row count the Column Pruner tests and the
    metadata reports. A table is held as its list of rows, so a table
    projected onto zero columns still counts its rows; the spec leaves the
    count after such a selection open. *)
Definition ref_num_rows (block : Block) : Z :=
  match block with
  | TableBlock _ rows => Z.of_nat (length rows)
  | SimpleBlock items => Z.of_nat (length items)
  end.

(** Modelled from the spec: the byte size the metadata reports. The spec
    leaves its measure open; here every integer cell takes eight bytes. *)
Definition ref_size_bytes (block : Block) : Z :=
  match block with
  | TableBlock _ rows => 8 * Z.of_nat (sum_list (size <$> rows))
  | SimpleBlock items => 8 * Z.of_nat (length items)
  end.

Definition select_row (columns : list string) (row : Row) : result Row :=
  cells ← mapM (getitem row) columns;
  mret (list_to_map (zip columns cells)).

(** Modelled from the spec: [select(columns) -> Block], the projection of a
    table onto the given columns; a column the table lacks is a schema
    mismatch and raises. *)
Definition ref_select (block : Block) (columns : list string) : result Block :=
  match block with
  | TableBlock format rows =>
      rows' ← mapM (select_row columns) rows;
      mret (TableBlock format rows')
  | SimpleBlock _ => Raise (ValueError "not a table block")
  end.

(** Modelled from the spec: the columns a key names; an opaque callable is
    an invalid key type for the table operations. *)
Definition key_column_names (key : Key) : result (list string) :=
  match key with
  | KNone => Ok []
  | KStr column => Ok [column]
  | KList columns => Ok columns
  | KCallable => Raise (ValueError "invalid key type")
  end.

Definition key_of_row (key : Key) (row : Row) : result KeyType :=
  columns ← key_column_names key;
  mapM (getitem row) columns.

(** Key order: Python's tuple order, [k1 < k2] and [k1 <= k2]. *)
Definition key_lt (k1 k2 : KeyType) : Prop := lexico k1 k2.
Definition key_le (k1 k2 : KeyType) : Prop := ¬ lexico k2 k1.
Definition keyed_le (x y : KeyType * Row) : Prop := key_le x.1 y.1.

Global Instance key_lt_dec k1 k2 : Decision (key_lt k1 k2).
Proof. unfold key_lt. apply _. Defined.
Global Instance key_le_dec k1 k2 : Decision (key_le k1 k2).
Proof. unfold key_le. apply _. Defined.
Global Instance keyed_le_dec x y : Decision (keyed_le x y).
Proof. unfold keyed_le. apply _. Defined.

Definition keyed_rows (columns : list string) (rows : list Row)
    : result (list (KeyType * Row)) :=
  mapM (λ row, k ← mapM (getitem row) columns; mret (k, row)) rows.

(** The longest prefix whose elements satisfy [p], and the rest. *)
Fixpoint span {A} (p : A → bool) (l : list A) : list A * list A :=
  match l with
  | [] => ([], [])
  | x :: l' =>
      if p x
      then let '(lo, hi) := span p l' in (x :: lo, hi)
      else ([], l)
  end.

(** Modelled from the spec: the Partition Planner. Sweeping the boundaries
    in order over rows sorted by key, each boundary cuts off the rows whose
    key is at most that boundary; what remains after the last boundary is
    the last partition. Empty partitions are emitted. *)
Fixpoint partition_sorted (rows : list (KeyType * Row))
    (boundaries : list KeyType) : list (list (KeyType * Row)) :=
  match boundaries with
  | [] => [rows]
  | b :: boundaries' =>
      let '(lo, hi) := span (λ x, bool_decide (key_le x.1 b)) rows in
      lo :: partition_sorted hi boundaries'
  end.

(** Modelled from the spec: [sortAndPartition(boundaries, key)], a local
    sort by key followed by the Partition Planner. *)
Definition ref_sort_and_partition (block : Block)
    (boundaries : list KeyType) (sort_key : SortKey) : result (list Block) :=
  match block with
  | TableBlock format rows =>
      columns ← key_column_names (sort_key_columns sort_key);
      keyed ← keyed_rows columns rows;
      let sorted := merge_sort keyed_le keyed in
      mret ((λ part, TableBlock format (snd <$> part))
              <$> partition_sorted sorted boundaries)
  | SimpleBlock _ => Raise (ValueError "not a table block")
  end.

(** Adjacent rows sharing an equal key, gathered into one group. *)
Fixpoint group_adjacent (l : list (KeyType * Row))
    : list (KeyType * list Row) :=
  match l with
  | [] => []
  | (k, row) :: l' =>
      match group_adjacent l' with
      | (k', rows) :: groups =>
          if decide (k = k')
          then (k, row :: rows) :: groups
          else (k, [row]) :: (k', rows) :: groups
      | [] => [(k, [row])]
      end
  end.

(** The key cells of an output row. *)
Definition key_cells (columns : list string) (k : KeyType) : Row :=
  list_to_map (zip columns k).

(** One partial-aggregate row: the key columns, then for each aggregate
    the state accumulated over the group's rows under the aggregate's
    name. *)
Definition partial_row (columns : list string) (aggs : list AggregateFn)
    (group : KeyType * list Row) : Row :=
  key_cells columns group.1
  ∪ list_to_map ((λ agg, (name agg,
                          foldl (accumulate_row agg) (init agg group.1) group.2))
                   <$> aggs).

(** Modelled from the spec: [combine(key, aggs)], the local combine of a
    partition into one partial-aggregate row per distinct key; without a
    key the whole block is one group. *)
Definition ref_combine (block : Block) (key : Key) (aggs : list AggregateFn)
    : result Block :=
  match block with
  | TableBlock format rows =>
      columns ← key_column_names key;
      keyed ← keyed_rows columns rows;
      let groups := match key with
                    | KNone => [([], rows)]
                    | _ => group_adjacent keyed
                    end in
      mret (TableBlock format (partial_row columns aggs <$> groups))
  | SimpleBlock _ => Raise (ValueError "not a table block")
  end.

Definition target_format (batch_format : string) : BlockFormat :=
  if decide (batch_format = "pandas") then Pandas else Arrow.

(** Modelled from the spec: [normalizeBlockTypes(blocks, targetFormat)],
    every input block brought to the representation of the target batch
    format, in order. *)
Definition ref_normalize_block_types (blocks : list Block)
    (batch_format : string) : result (list Block) :=
  mapM (λ block, rows ← table_rows block;
                 mret (TableBlock (target_format batch_format) rows)) blocks.

(** The partial states a partial-aggregate row holds, one per aggregate. *)
Definition partial_states (aggs : list AggregateFn) (row : Row)
    : result (list Z) :=
  mapM (λ agg, getitem row (name agg)) aggs.

Definition merge_states (aggs : list AggregateFn) (s1 s2 : list Z) : list Z :=
  zip_with (λ agg s, merge agg s.1 s.2) aggs (zip s1 s2).

(** One step of the merge: the row's key is looked up in the accumulator,
    which is sorted by key and holds each key once; an equal key merges the
    states, a new key is put in its place. *)
Fixpoint merge_into (aggs : list AggregateFn) (k : KeyType) (s : list Z)
    (acc : list (KeyType * list Z)) : list (KeyType * list Z) :=
  match acc with
  | [] => [(k, s)]
  | (k', s') :: acc' =>
      if decide (k = k') then (k', merge_states aggs s' s) :: acc'
      else if decide (key_lt k k') then (k, s) :: acc
      else (k', s') :: merge_into aggs k s acc'
  end.

(** The merged per-key partial states of the rows of all input blocks. *)
Definition merged_states (key : Key) (aggs : list AggregateFn)
    (blocks : list Block) : result (list (KeyType * list Z)) :=
  columns ← key_column_names key;
  tables ← mapM table_rows blocks;
  entries ← mapM (λ row, k ← mapM (getitem row) columns;
                         s ← partial_states aggs row;
                         mret (k, s)) (concat tables);
  mret (foldl (λ acc e, merge_into aggs e.1 e.2 acc) [] entries).

Definition finalize_states (aggs : list AggregateFn) (s : list Z) : list Z :=
  zip_with finalize aggs s.

(** An output row: the key columns, then each aggregate's value under the
    aggregate's name. *)
Definition output_row (columns : list string) (aggs : list AggregateFn)
    (entry : KeyType * list Z) : Row :=
  key_cells columns entry.1 ∪ list_to_map (zip (name <$> aggs) entry.2).

(** Modelled from the spec: [aggregateCombinedBlocks(blocks, key, aggs,
    finalize)], the Merge-Reduce Task's merge. The rows of the input blocks
    are merged by key, the partial states of equal keys with each
    aggregate's merge; when [finalize] is set each merged state is turned
    into its output value with the aggregate's finalize, otherwise it is
    left as it is. One output block comes back with the metadata of the
    task. *)
Definition ref_aggregate_combined_blocks (self : Block) (blocks : list Block)
    (key : Key) (aggs : list AggregateFn) (finalize : bool)
    : Task (Block * BlockMetadata) :=
  stats ← BlockExecStats_builder;
  format ← lift (table_format self);
  columns ← lift (key_column_names key);
  merged ← lift (merged_states key aggs blocks);
  let final := if finalize
               then (λ e, (e.1, finalize_states aggs e.2)) <$> merged
               else merged in
  let ret := TableBlock format (output_row columns aggs <$> final) in
  exec_stats ← build stats;
  mret (ret, mkBlockMetadata (ref_num_rows ret) (ref_size_bytes ret) exec_stats).

Global Instance ref_BlockAccessor : BlockAccessor Block := {|
  isinstance_TableBlockAccessor := ref_isinstance_TableBlockAccessor;
  num_rows := ref_num_rows;
  size_bytes := ref_size_bytes;
  select := ref_select;
  sort_and_partition := ref_sort_and_partition;
  combine := ref_combine;
  normalize_block_types := ref_normalize_block_types;
  aggregate_combined_blocks := ref_aggregate_combined_blocks;
|}.

(** *** Aggregates and inputs used in the examples *)

Definition Sum (on : string) : AggregateFn := {|
  agg_kind := AggregateOnKeyBase (KStr on);
  name := "sum(" +:+ on +:+ ")";
  init := λ _, 0;
  accumulate_row := λ a row, a + default 0 (row !! on);
  merge := Z.add;
  finalize := λ a, a;
|}.

Definition AbsMax (on : string) : AggregateFn := {|
  agg_kind := AggregateOnKeyBase (KStr on);
  name := "abs_max(" +:+ on +:+ ")";
  init := λ _, 0;
  accumulate_row := λ a row, Z.max a (Z.abs (default 0 (row !! on)));
  merge := Z.max;
  finalize := λ a, a;
|}.

Definition CountRows : AggregateFn := {|
  agg_kind := Count;
  name := "count()";
  init := λ _, 0;
  accumulate_row := λ a _, a + 1;
  merge := Z.add;
  finalize := λ a, a;
|}.

(** A user-defined aggregate outside the [_AggregateOnKeyBase] hierarchy:
    the sum of column [on], doubled when finalized. *)
Definition TwiceSum (on : string) : AggregateFn := {|
  agg_kind := Custom;
  name := "twice_sum";
  init := λ _, 0;
  accumulate_row := λ a row, a + default 0 (row !! on);
  merge := Z.add;
  finalize := λ a, 2 * a;
|}.

Definition row_abc (a b c : Z) : Row :=
  {[ "a" := a; "b" := b; "c" := c ]}.

(** The rows [(a=1,b=10), (a=6,b=20), (a=1,b=5)] of the spec's scenario,
    with a third column [c] that no aggregate reads. *)
Definition scenario_block : Block :=
  TableBlock Arrow [row_abc 1 10 100; row_abc 6 20 200; row_abc 1 5 300].

(** A clock that advances by [step] at every reading. *)
Definition clock (step : Z) : World := mkWorld (λ n, step * Z.of_nat n) 0.

(** The scenario block after pruning for key [a] and [Sum(b)]: column [c]
    is gone. *)
Definition scenario_pruned : Block :=
  TableBlock Arrow
    [ {[ "a" := 1; "b" := 10 ]}; {[ "a" := 6; "b" := 20 ]};
      {[ "a" := 1; "b" := 5 ]} ].

(** The two partial-aggregate partitions of the scenario for the boundary
    list [[5]]: [(a=1, sum=15)] and [(a=6, sum=20)]. *)
Definition scenario_parts : list Block :=
  [ TableBlock Arrow [ {[ "a" := 1; "sum(b)" := 15 ]} ];
    TableBlock Arrow [ {[ "a" := 6; "sum(b)" := 20 ]} ] ].

(** What [map] returns on the scenario when [elapsed] passes between its two
    readings of the clock: the metadata counts 3 rows of 2 cells. *)
Definition scenario_map_output (elapsed : Z) : list (Block + BlockMetadata) :=
  (inl <$> scenario_parts)
  ++ [inr (mkBlockMetadata 3 48 (mkBlockExecStats elapsed))].

(** What [map] returns on the scenario without a key: one partition, the
    sum of [b] over all rows. *)
Definition scenario_global_output (elapsed : Z)
    : list (Block + BlockMetadata) :=
  [ inl (TableBlock Arrow [ {[ "sum(b)" := 35 ]} ]);
    inr (mkBlockMetadata 3 24 (mkBlockExecStats elapsed)) ].

(** Partition 0 as two map tasks produced it, for the aggregates [Sum(b)]
    and [TwiceSum(b)]: partial sums 15 and 7 for key [a=1]. *)
Definition scenario_mapper_outputs : list Block :=
  [ TableBlock Arrow [ {[ "a" := 1; "sum(b)" := 15; "twice_sum" := 15 ]} ];
    TableBlock Arrow [ {[ "a" := 1; "sum(b)" := 7; "twice_sum" := 7 ]} ] ].

End Reference.

(** ** Notions used to state the properties *)

Section notions.
Context {Block : Type} {accessor : BlockAccessor Block}.

(** The partitions [map] combines: the pruned block alone without a key,
    what [sort_and_partition] cuts otherwise. *)
Definition map_partitions (pruned : Block) (boundaries : list KeyType)
    (key : Key) : result (list Block) :=
  match key with
  | KNone => Ok [pruned]
  | _ => sort_and_partition pruned boundaries (mkSortKey key)
  end.

(** The execution statistics a task builds when it starts in world [w] and
    reads the clock twice, when its builder is created and when it is built:
    the time between the two readings. *)
Definition task_exec_stats (w : World) : BlockExecStats :=
  mkBlockExecStats (timeline w (S (ticks w)) - timeline w (ticks w)).

(** The same accessor with another [sort_and_partition] in its place. *)
Definition with_sort_and_partition
    (f : Block → list KeyType → SortKey → result (list Block))
    : BlockAccessor Block := {|
  isinstance_TableBlockAccessor := isinstance_TableBlockAccessor;
  num_rows := num_rows;
  size_bytes := size_bytes;
  select := select;
  sort_and_partition := f;
  combine := combine;
  normalize_block_types := normalize_block_types;
  aggregate_combined_blocks := aggregate_combined_blocks;
|}.

(** The Column Pruner as the specification words it: the columns the key
    names ... *)
Definition key_columns (key : Key) : gset string :=
  match key with
  | KStr column => {[column]}
  | KList columns => list_to_set columns
  | KNone | KCallable => ∅
  end.

(** ... together with the column of every aggregate whose key accessor is a
    plain column name ... *)
Definition needed_columns (key : Key) (aggs : list AggregateFn) : gset string :=
  key_columns key ∪ list_to_set (omap on_key_str aggs).

(** ... and pruning is eligible when the key is not an opaque function and
    every aggregate either reads a plain column or is a row count. *)
Definition agg_prunable (agg : AggregateFn) : bool :=
  bool_decide (is_Some (on_key_str agg)) || isinstance_Count agg.

Definition prune_eligible (key : Key) (aggs : list AggregateFn) : bool :=
  bool_decide (key ≠ KCallable) && forallb agg_prunable aggs.

(** The same accessor with another [select] in its place. *)
Definition with_select (f : Block → list string → result Block)
    : BlockAccessor Block := {|
  isinstance_TableBlockAccessor := isinstance_TableBlockAccessor;
  num_rows := num_rows;
  size_bytes := size_bytes;
  select := f;
  sort_and_partition := sort_and_partition;
  combine := combine;
  normalize_block_types := normalize_block_types;
  aggregate_combined_blocks := aggregate_combined_blocks;
|}.

(** Whether [_prune_unused_columns] reaches its call of [select]. *)
Definition pruning_applies (block : Block) (key : Key)
    (aggs : list AggregateFn) : bool :=
  prune_eligible key aggs
  && isinstance_TableBlockAccessor block
  && bool_decide (0 < num_rows block).

(** An aggregate whose accumulation reads no cell of a row but the one in
    the column its [_key_fn] names (none at all for a row count). *)
Definition reads_own_column (agg : AggregateFn) : Prop :=
  ∀ (a : Z) (row row' : Row),
    (∀ column, on_key_str agg = Some column → row !! column = row' !! column) →
    accumulate_row agg a row = accumulate_row agg a row'.

End notions.

(** Key [k] lies in the range of partition [i] of [boundaries]: above
    boundary [i-1] when there is one, at most boundary [i] when there is
    one. *)
Definition in_partition_range (boundaries : list KeyType) (i : nat)
    (k : KeyType) : Prop :=
  (∀ j b, i = S j → boundaries !! j = Some b → Reference.key_lt b k)
  ∧ (∀ b, boundaries !! i = Some b → Reference.key_le k b).

(** How a pruned row stands to the row it comes from: nothing in it but
    cells of that row, and every cell of a needed column still there. *)
Definition pruned_from (needed : gset string) (row row' : Row) : Prop :=
  row' ⊆ row ∧ ∀ column, column ∈ needed → row' !! column = row !! column.

(** Two rows that hold the same cells in the columns [needed], and two
    keyed rows that do and have the same key. *)
Definition rows_agree (needed : gset string) (row row' : Row) : Prop :=
  ∀ column, column ∈ needed → row !! column = row' !! column.

Definition keyed_agree (needed : gset string) (x x' : KeyType * Row) : Prop :=
  x.1 = x'.1 ∧ rows_agree needed x.2 x'.2.

(** The partial-aggregate blocks the reference blocks give for a table
    whose rows come with their keys: sort, cut at the boundaries, combine
    each partition. *)
Definition combined_partitions (format : Reference.BlockFormat)
    (columns : list string) (aggs : list AggregateFn)
    (boundaries : list KeyType) (keyed : list (KeyType * Row))
    : list Reference.Block :=
  (λ part, Reference.TableBlock format
             (Reference.partial_row columns aggs
                <$> Reference.group_adjacent part))
    <$> Reference.partition_sorted
          (merge_sort Reference.keyed_le keyed) boundaries.

(** An aggregate whose merge is associative. *)
Definition merge_associative (agg : AggregateFn) : Prop :=
  ∀ a b c, merge agg (merge agg a b) c = merge agg a (merge agg b c).

(** The merge accumulator read as a map from keys to states: an entry
    merges into the state its key has, or gives its key a state. *)
Definition upsert_states (aggs : list AggregateFn)
    (m : gmap KeyType (list Z)) (e : KeyType * list Z)
    : gmap KeyType (list Z) :=
  <[e.1 := match m !! e.1 with
           | Some s0 => Reference.merge_states aggs s0 e.2
           | None => e.2
           end]> m.

(** The merged per-key states of a list of entries. *)
Definition merge_entries (aggs : list AggregateFn)
    (entries : list (KeyType * list Z)) : list (KeyType * list Z) :=
  foldl (λ acc e, Reference.merge_into aggs e.1 e.2 acc) [] entries.

(** The entry a row of a mapper output stands for in the merge: its key and
    its partial states. *)
Definition row_entry (columns : list string) (aggs : list AggregateFn)
    (row : Row) : result (KeyType * list Z) :=
  k ← mapM (getitem row) columns;
  s ← Reference.partial_states aggs row;
  mret (k, s).

(** The block the reference merge returns for merged states: finalized or
    not, in the target format. *)
Definition reduced_block (batch_format : string) (columns : list string)
    (aggs : list AggregateFn) (partial_reduce : bool)
    (merged : list (KeyType * list Z)) : Reference.Block :=
  Reference.TableBlock (Reference.target_format batch_format)
    (Reference.output_row columns aggs
       <$> (if negb partial_reduce
            then (λ e, (e.1, Reference.finalize_states aggs e.2)) <$> merged
            else merged)).

(** * Properties *)

Import SortAggregateTaskSpec.

(** ** The monads *)

Lemma result_bind_Ok {A B} (m : result A) (f : A → result B) b :
  m ≫= f = Ok b → ∃ a, m = Ok a ∧ f a = Ok b.
Proof. destruct m as [a|e]; [eauto | discriminate]. Qed.

Lemma Task_bind_Ok {A B} (m : Task A) (f : A → Task B) w b w' :
  (m ≫= f) w = Ok (b, w') → ∃ a w1, m w = Ok (a, w1) ∧ f a w1 = Ok (b, w').
Proof.
  unfold mbind, Task_bind. destruct (m w) as [[a w1]|e]; [eauto | discriminate].
Qed.

Lemma lift_Ok {A} (m : result A) w a w' :
  lift m w = Ok (a, w') → m = Ok a ∧ w' = w.
Proof. destruct m; simpl; [|discriminate]. by intros [= -> ->]. Qed.

Lemma builder_Ok w b w' :
  BlockExecStats_builder w = Ok (b, w') →
  b = mkBuilder (timeline w (ticks w)) ∧ w' = mkWorld (timeline w) (S (ticks w)).
Proof. by intros [= <- <-]. Qed.

Lemma build_Ok b w stats w' :
  build b w = Ok (stats, w') →
  stats = mkBlockExecStats (timeline w (ticks w) - start_time b)
  ∧ w' = mkWorld (timeline w) (S (ticks w)).
Proof. by intros [= <- <-]. Qed.

Lemma mapM_Ok_Forall2 {A B} (f : A → result B) l k :
  mapM f l = Ok k ↔ Forall2 (λ x y, f x = Ok y) l k.
Proof.
  split.
  - revert k. induction l as [|x l IH]; intros k Hk; simpl in Hk.
    + injection Hk as <-. constructor.
    + apply result_bind_Ok in Hk as (y & Hy & Hk).
      apply result_bind_Ok in Hk as (k' & Hk' & Hk).
      injection Hk as <-. constructor; auto.
  - induction 1 as [|x y l k Hxy _ IH]; simpl; [done|].
    by rewrite Hxy, IH.
Qed.

Lemma mapM_Ok_length {A B} (f : A → result B) l k :
  mapM f l = Ok k → length k = length l.
Proof. intros Hk%mapM_Ok_Forall2. symmetry. by eapply Forall2_length. Qed.

(** ** What [map] and [reduce] return *)

Section tasks.
Context {Block : Type} {accessor : BlockAccessor Block}.

Lemma map_Ok idx block n boundaries key aggs w l w' :
  map idx block n boundaries key aggs w = Ok (l, w') →
  ∃ pruned partitions parts,
    _prune_unused_columns block key aggs = Ok pruned
    ∧ map_partitions pruned boundaries key = Ok partitions
    ∧ mapM (λ p, combine p key aggs) partitions = Ok parts
    ∧ l = (inl <$> parts) ++ [inr (get_metadata pruned (task_exec_stats w))]
    ∧ w' = mkWorld (timeline w) (S (S (ticks w))).
Proof.
  unfold map. intros Hm.
  apply Task_bind_Ok in Hm as (b & w1 & Hb & Hm).
  apply builder_Ok in Hb as [-> ->].
  apply Task_bind_Ok in Hm as (pruned & w2 & Hp & Hm).
  apply lift_Ok in Hp as [Hp ->].
  apply Task_bind_Ok in Hm as (partitions & w3 & Hs & Hm).
  apply lift_Ok in Hs as [Hs ->].
  apply Task_bind_Ok in Hm as (parts & w4 & Hc & Hm).
  apply lift_Ok in Hc as [Hc ->].
  apply Task_bind_Ok in Hm as (stats & w5 & Hb & Hm).
  apply build_Ok in Hb as [-> ->]. simpl in Hm.
  injection Hm as <- <-.
  exists pruned, partitions, parts. by repeat split.
Qed.

Lemma reduce_Ok key aggs batch_format blocks partial_reduce w r w' :
  reduce key aggs batch_format blocks partial_reduce w = Ok (r, w') →
  ∃ first normalized,
    normalize_block_types blocks batch_format = Ok (first :: normalized)
    ∧ aggregate_combined_blocks first (first :: normalized) key aggs
        (negb partial_reduce) w = Ok (r, w').
Proof.
  unfold reduce. intros Hr.
  apply Task_bind_Ok in Hr as (nbs & w1 & Hn & Hr).
  apply lift_Ok in Hn as [Hn ->].
  destruct nbs as [|first normalized]; [discriminate|]. eauto.
Qed.

(** C1, as the code has it. The metadata [map] returns is computed over the
    block that column pruning returned (the input block itself whenever
    pruning does not apply), not over the partition blocks, and its
    execution statistics span the whole task: from the first reading of the
    clock, taken when [map] starts, to the last, taken after every partition
    is combined. *)
Theorem map_metadata_over_pruned_block idx block n boundaries key aggs w l w' :
  map idx block n boundaries key aggs w = Ok (l, w') →
  ∃ pruned,
    _prune_unused_columns block key aggs = Ok pruned
    ∧ last l = Some (inr (get_metadata pruned (task_exec_stats w)))
    ∧ wall_time_s (task_exec_stats w)
      = timeline w (S (ticks w)) - timeline w (ticks w)
    ∧ ticks w' = S (S (ticks w)).
Proof.
  intros (pruned & partitions & parts & Hp & _ & _ & -> & ->)%map_Ok.
  exists pruned. by rewrite last_snoc.
Qed.

(** The shape of what [map] returns, given the number of partitions that
    [sort_and_partition] cuts. *)
Lemma map_shape
    idx block n boundaries key aggs w l w' :
  map idx block n boundaries key aggs w = Ok (l, w') →
  (∀ pruned partitions,
     _prune_unused_columns block key aggs = Ok pruned →
     sort_and_partition pruned boundaries (mkSortKey key) = Ok partitions →
     length partitions = S (length boundaries)) →
  ∃ pruned partitions parts meta,
    _prune_unused_columns block key aggs = Ok pruned
    ∧ map_partitions pruned boundaries key = Ok partitions
    ∧ Forall2 (λ partition part, combine partition key aggs = Ok part)
        partitions parts
    ∧ l = (inl <$> parts) ++ [inr meta]
    ∧ length parts
      = (if decide (key = KNone) then 1%nat else S (length boundaries))
    ∧ length l
      = S (if decide (key = KNone) then 1%nat else S (length boundaries)).
Proof.
  intros (pruned & partitions & parts & Hp & Hs & Hc & -> & _)%map_Ok Hcut.
  assert (length parts
          = if decide (key = KNone) then 1%nat else S (length boundaries))
    as Hlen.
  { rewrite (mapM_Ok_length _ _ _ Hc).
    destruct key; simpl in Hs; try (by apply (Hcut pruned)).
    by injection Hs as <-. }
  exists pruned, partitions, parts, (get_metadata pruned (task_exec_stats w)).
  repeat split; try done.
  - by apply mapM_Ok_Forall2.
  - rewrite length_app, length_fmap, Hlen. simpl. lia.
Qed.

(** C3. Without a key [map] neither sorts nor partitions: the pruned block
    is the single partition, so what comes back is its combine followed by
    the metadata, whatever the boundaries, the requested number of output
    blocks and the [sort_and_partition] of the accessor. *)
Theorem map_without_key idx block n boundaries aggs w l w' :
  map idx block n boundaries KNone aggs w = Ok (l, w') →
  (∃ pruned part,
     _prune_unused_columns block KNone aggs = Ok pruned
     ∧ map_partitions pruned boundaries KNone = Ok [pruned]
     ∧ combine pruned KNone aggs = Ok part
     ∧ l = [inl part; inr (get_metadata pruned (task_exec_stats w))])
  ∧ (∀ n' boundaries' f,
       map (accessor := with_sort_and_partition f)
         idx block n' boundaries' KNone aggs w
       = Ok (l, w')).
Proof.
  intros Hm. split; [|done].
  apply map_Ok in Hm as (pruned & partitions & parts & Hp & Hs & Hc & -> & _).
  injection Hs as <-.
  apply mapM_Ok_Forall2 in Hc.
  apply Forall2_cons_inv_l in Hc as (part & parts' & Hpart & Hnil & ->).
  apply Forall2_nil_inv_l in Hnil as ->.
  by exists pruned, part.
Qed.

(** [reduce] on the empty collection, which normalization can only leave
    empty: it raises, with the [IndexError] of [normalized_blocks[0]]
    whenever normalization itself returns. *)
Lemma reduce_empty_raises key aggs batch_format partial_reduce w :
  (∀ normalized,
     normalize_block_types [] batch_format = Ok normalized → normalized = []) →
  (∃ e, reduce key aggs batch_format [] partial_reduce w = Raise e
        ∧ (normalize_block_types [] batch_format = Ok [] → e = IndexError))
  ∧ (∀ blocks r w',
       reduce key aggs batch_format blocks partial_reduce w = Ok (r, w') →
       blocks ≠ []).
Proof.
  intros Hnil.
  assert (∃ e, reduce key aggs batch_format [] partial_reduce w = Raise e
               ∧ (normalize_block_types [] batch_format = Ok [] → e = IndexError))
    as (e & He & Hindex).
  { unfold reduce, mbind, Task_bind, lift.
    destruct (normalize_block_types [] batch_format) as [nbs|e] eqn:Hn.
    - rewrite (Hnil nbs eq_refl). by exists IndexError.
    - exists e. by split. }
  split; [by exists e|].
  intros blocks r w' Hr ->. by rewrite He in Hr.
Qed.

End tasks.

(** ** Column pruning *)

Section pruning.
Context {Block : Type} {accessor : BlockAccessor Block}.

Lemma count_reads_no_column agg :
  isinstance_Count agg = true → on_key_str agg = None.
Proof.
  unfold isinstance_Count, on_key_str. by destruct (agg_kind agg).
Qed.

Lemma prune_loop (aggs : list AggregateFn) (p : bool) (cols : gset string) :
  foldl prune_step (p, cols) aggs
  = (p && forallb agg_prunable aggs, cols ∪ list_to_set (omap on_key_str aggs)).
Proof.
  revert p cols. induction aggs as [|agg aggs IH]; intros p cols; simpl.
  - f_equal; [by rewrite andb_true_r | by rewrite (right_id_L ∅ (∪))].
  - unfold agg_prunable at 1. destruct (on_key_str agg) as [c|] eqn:Hc; simpl.
    + rewrite IH. f_equal. by rewrite <-(assoc_L (∪)).
    + destruct (isinstance_Count agg); simpl; rewrite IH; f_equal.
      by rewrite andb_false_r.
Qed.

Lemma prune_unfold block key aggs :
  _prune_unused_columns block key aggs
  = if prune_eligible key aggs
       && isinstance_TableBlockAccessor block
       && bool_decide (0 < num_rows block)
    then select block (elements (needed_columns key aggs))
    else Ok block.
Proof.
  unfold _prune_unused_columns, prune_eligible, needed_columns.
  destruct key as [|k|ks|]; simpl; rewrite prune_loop; simpl;
    try rewrite (left_id_L ∅ (∪)); try done.
Qed.


(** C5. Column pruning degrades to the identity: with an opaque (callable)
    key, or an aggregate that neither reads a plain column nor is a row
    count, or a block that is not a table block, or a block without rows,
    [_prune_unused_columns] returns the input block unchanged, and does so
    without raising. *)
Theorem prune_degrades_to_identity block key aggs :
  key = KCallable
  ∨ (∃ agg, agg ∈ aggs ∧ on_key_str agg = None ∧ isinstance_Count agg = false)
  ∨ isinstance_TableBlockAccessor block = false
  ∨ num_rows block = 0 →
  _prune_unused_columns block key aggs = Ok block.
Proof.
  intros Hcase. rewrite prune_unfold.
  destruct Hcase as [->|[(agg & Hin & Hstr & Hcount)|[Htable|Hrows]]].
  - done.
  - assert (forallb agg_prunable aggs = false) as Hall.
    { apply not_true_is_false. intros Hall.
      rewrite forallb_forall in Hall.
      specialize (Hall agg (proj1 (list_elem_of_In _ _) Hin)).
      unfold agg_prunable in Hall. rewrite Hstr, Hcount in Hall.
      rewrite bool_decide_eq_false_2 in Hall; [done|]. by intros [? [=]]. }
    unfold prune_eligible. rewrite Hall. by rewrite andb_false_r.
  - rewrite Htable. by rewrite andb_false_r.
  - rewrite Hrows. by rewrite andb_false_r.
Qed.

(** C6. When pruning is eligible and the block is a table block with at
    least one row, [_prune_unused_columns] is the projection of the block
    onto the needed columns, each listed once: the key's columns and the
    column of every column-reading aggregate. Row counts add no column: the
    needed set is that of the aggregate list with its row counts left
    out. *)
Theorem prune_projects_onto_needed block key aggs :
  prune_eligible key aggs = true →
  isinstance_TableBlockAccessor block = true →
  0 < num_rows block →
  _prune_unused_columns block key aggs
  = select block (elements (needed_columns key aggs))
  ∧ NoDup (elements (needed_columns key aggs))
  ∧ (∀ column, column ∈ elements (needed_columns key aggs) ↔
       column ∈ key_columns key
       ∨ ∃ agg, agg ∈ aggs ∧ on_key_str agg = Some column)
  ∧ needed_columns key aggs
    = needed_columns key (filter (λ agg, isinstance_Count agg = false) aggs).
Proof.
  intros Hel Htable Hrows. repeat split.
  - rewrite prune_unfold, Hel, Htable. by rewrite bool_decide_eq_true_2.
  - apply NoDup_elements.
  - rewrite elem_of_elements. unfold needed_columns.
    rewrite elem_of_union, elem_of_list_to_set, list_elem_of_omap. naive_solver.
  - rewrite elem_of_elements. unfold needed_columns.
    rewrite elem_of_union, elem_of_list_to_set, list_elem_of_omap. naive_solver.
  - unfold needed_columns. f_equal. f_equal.
    induction aggs as [|agg aggs' IH]; [done|].
    assert (prune_eligible key aggs' = true) as Hel'.
    { unfold prune_eligible in *. simpl in Hel.
      apply andb_true_iff in Hel as [Hk [_ Hall]%andb_true_iff].
      by rewrite Hk, Hall. }
    rewrite filter_cons. destruct (isinstance_Count agg) eqn:Hcount.
    + rewrite decide_False by done. simpl.
      rewrite (count_reads_no_column _ Hcount). by apply IH.
    + rewrite decide_True by done. simpl.
      destruct (on_key_str agg); [f_equal|]; by apply IH.
Qed.

(** C10. With no key and only row counts to compute, the needed column set
    is empty; on a table block with at least one row pruning is still
    applied, as the projection onto zero columns. *)
Theorem prune_onto_zero_columns block aggs :
  Forall (λ agg, isinstance_Count agg = true) aggs →
  isinstance_TableBlockAccessor block = true →
  0 < num_rows block →
  needed_columns KNone aggs = ∅
  ∧ _prune_unused_columns block KNone aggs = select block [].
Proof.
  intros Hcount Htable Hrows.
  assert (omap on_key_str aggs = [] ∧ forallb agg_prunable aggs = true)
    as [Hnone Hall].
  { induction Hcount as [|agg aggs' Hagg _ [IH1 IH2]]; [done|]. simpl.
    unfold agg_prunable at 1. rewrite Hagg, IH2, orb_true_r.
    by rewrite (count_reads_no_column _ Hagg). }
  assert (needed_columns KNone aggs = ∅) as Hneeded.
  { unfold needed_columns. rewrite Hnone. simpl. by rewrite (left_id_L ∅ (∪)). }
  split; [done|].
  rewrite prune_unfold, Hneeded, elements_empty.
  unfold prune_eligible. rewrite Hall, Htable. simpl.
  by rewrite bool_decide_eq_true_2.
Qed.

End pruning.

(** ** The reference implementation *)

Import Reference.

(** *** Key order *)

Global Instance key_le_transitive : Transitive key_le.
Proof.
  unfold key_le. intros a b c Hab Hbc Hca.
  destruct (trichotomy (@lexico KeyType _) a b) as [Hlt|[->|Hgt]]; [|done..].
  apply Hbc. by trans a.
Qed.

Global Instance key_le_total : Total key_le.
Proof.
  unfold key_le. intros a b.
  destruct (decide (lexico b a)) as [Hba|]; [right|by left].
  intros Hab. by apply (irreflexivity (@lexico KeyType _) a); trans b.
Qed.

Global Instance keyed_le_transitive : Transitive keyed_le.
Proof. unfold keyed_le. intros x y z ??. by trans y.1. Qed.

Global Instance keyed_le_total : Total keyed_le.
Proof. unfold keyed_le. intros x y. apply (total key_le). Qed.

Lemma key_lt_le_trans a b c : key_lt a b → key_le b c → key_lt a c.
Proof.
  unfold key_lt, key_le. intros Hab Hbc.
  destruct (trichotomy (@lexico KeyType _) a c) as [Hlt|[->|Hgt]]; [done..|].
  destruct Hbc. by trans a.
Qed.

(** *** The Partition Planner *)

Lemma span_spec {A} (p : A → bool) l lo hi :
  span p l = (lo, hi) →
  l = lo ++ hi ∧ Forall (λ x, p x = true) lo ∧ (∀ x, head hi = Some x → p x = false).
Proof.
  revert lo hi. induction l as [|x l IH]; intros lo hi Hs; simpl in Hs.
  - injection Hs as <- <-. by repeat split.
  - destruct (p x) eqn:Hx.
    + destruct (span p l) as [lo' hi'] eqn:Hs'. injection Hs as <- <-.
      destruct (IH lo' hi' eq_refl) as (-> & Hlo & Hhi).
      repeat split; [by constructor | done].
    + injection Hs as <- <-. repeat split; [done|]. by intros ? [= <-].
Qed.

Lemma partition_sorted_length rows boundaries :
  length (partition_sorted rows boundaries) = S (length boundaries).
Proof.
  revert rows. induction boundaries as [|b bs IH]; intros rows; simpl; [done|].
  destruct (span _ rows) as [lo hi]. simpl. by rewrite IH.
Qed.

Lemma partition_sorted_range rows boundaries i part x :
  StronglySorted keyed_le rows →
  partition_sorted rows boundaries !! i = Some part →
  x ∈ part →
  x ∈ rows ∧ in_partition_range boundaries i x.1.
Proof.
  revert rows i. induction boundaries as [|b bs IH]; intros rows i Hsorted Hi Hx.
  - destruct i as [|i]; [|done]. injection Hi as <-.
    split; [done|]. split; intros; simplify_eq/=.
  - simpl in Hi. destruct (span _ rows) as [lo hi] eqn:Hspan.
    apply span_spec in Hspan as (-> & Hlo & Hhi).
    destruct i as [|i]; simpl in Hi.
    + injection Hi as <-. split; [apply elem_of_app; by left|].
      split; [done|]. intros b' [= <-].
      rewrite Forall_forall in Hlo. by apply (bool_decide_eq_true_1 _), Hlo.
    + destruct (IH hi i (StronglySorted_app_1_r _ _ _ Hsorted) Hi Hx)
        as (Hin & Hlower & Hupper).
      split; [apply elem_of_app; by right|]. split; [|done].
      intros j b' [= <-] Hb'. destruct i as [|i]; [|by eapply Hlower].
      injection Hb' as <-.
      destruct hi as [|y hi]; [by apply elem_of_nil in Hin|].
      specialize (Hhi y eq_refl). apply (bool_decide_eq_false_1 _) in Hhi.
      assert (key_lt b y.1) as Hby.
      { unfold key_le in Hhi. by destruct (decide (lexico b y.1)). }
      apply StronglySorted_app_1_r in Hsorted.
      apply elem_of_cons in Hin as [->|Hin]; [done|].
      apply StronglySorted_inv in Hsorted as [_ Hy].
      rewrite Forall_forall in Hy. eapply key_lt_le_trans; [done|].
      by apply Hy.
Qed.

(** *** Column selection *)

(** The reference [select] keeps every row and leaves each with exactly the
    selected columns. *)
Lemma ref_select_columns format rows columns block' :
  ref_select (TableBlock format rows) columns = Ok block' →
  ∃ rows',
    block' = TableBlock format rows'
    ∧ length rows' = length rows
    ∧ Forall (λ row : Row, dom row = list_to_set columns) rows'.
Proof.
  unfold ref_select. intros (rows' & Hr & [= <-])%result_bind_Ok.
  exists rows'. split; [done|]. split; [by eapply mapM_Ok_length|].
  apply mapM_Ok_Forall2 in Hr.
  induction Hr as [|row row' rows rows' Hrow _ IH]; constructor; [|done].
  apply result_bind_Ok in Hrow as (cells & Hcells%mapM_Ok_length & [= <-]).
  rewrite dom_list_to_map_L, fst_zip by lia. done.
Qed.

(** *** Sorting, partitioning and combining tables *)

Lemma keyed_rows_spec columns rows keyed :
  keyed_rows columns rows = Ok keyed →
  rows = snd <$> keyed
  ∧ ∀ x, x ∈ keyed → mapM (getitem x.2) columns = Ok x.1.
Proof.
  unfold keyed_rows. intros Hk%mapM_Ok_Forall2.
  induction Hk as [|row x rows keyed Hx _ [IH1 IH2]]; [split; [done|]|].
  - by intros x ?%elem_of_nil.
  - apply result_bind_Ok in Hx as (k & Hk & [= <-]). split.
    + simpl. by f_equal.
    + intros y [->|Hy]%elem_of_cons; [done|by apply IH2].
Qed.

Lemma ref_sort_and_partition_Ok format rows boundaries key partitions :
  ref_sort_and_partition (TableBlock format rows) boundaries (mkSortKey key)
  = Ok partitions →
  ∃ columns keyed,
    key_column_names key = Ok columns
    ∧ keyed_rows columns rows = Ok keyed
    ∧ partitions = (λ part, TableBlock format (snd <$> part))
                     <$> partition_sorted (merge_sort keyed_le keyed) boundaries.
Proof.
  unfold ref_sort_and_partition. simpl. intros Hs.
  apply result_bind_Ok in Hs as (columns & Hc & Hs).
  apply result_bind_Ok in Hs as (keyed & Hk & [= <-]).
  by exists columns, keyed.
Qed.

(** The reference [sort_and_partition] emits one partition more than there
    are boundaries, empty partitions included. *)
Lemma ref_sort_and_partition_length block boundaries sort_key partitions :
  ref_sort_and_partition block boundaries sort_key = Ok partitions →
  length partitions = S (length boundaries).
Proof.
  destruct block as [format rows|]; [|done]. destruct sort_key as [key].
  intros (columns & keyed & _ & _ & ->)%ref_sort_and_partition_Ok.
  by rewrite length_fmap, partition_sorted_length.
Qed.

Lemma group_adjacent_keys l g :
  g ∈ group_adjacent l → ∃ x, x ∈ l ∧ x.1 = g.1.
Proof.
  revert g. induction l as [|[k row] l IH]; intros g Hg; simpl in Hg.
  - by apply elem_of_nil in Hg.
  - assert (∀ g', g' ∈ group_adjacent l → ∃ x, x ∈ (k, row) :: l ∧ x.1 = g'.1)
      as IH'.
    { intros g' (x & Hx & Hk)%IH. exists x. split; [by right|done]. }
    destruct (group_adjacent l) as [|[k' rows] groups].
    + apply list_elem_of_singleton in Hg as ->. exists (k, row). by split; [left|].
    + destruct (decide (k = k')) as [<-|].
      * apply elem_of_cons in Hg as [->|Hg].
        -- exists (k, row). by split; [left|].
        -- apply IH'. by right.
      * apply elem_of_cons in Hg as [->|Hg].
        -- exists (k, row). by split; [left|].
        -- by apply IH'.
Qed.

Lemma getitem_Ok (row : Row) column v :
  getitem row column = Ok v ↔ row !! column = Some v.
Proof. unfold getitem. destruct (row !! column); naive_solver. Qed.

Lemma key_cells_lookup (row : Row) columns k column :
  mapM (getitem row) columns = Ok k →
  column ∈ columns →
  key_cells columns k !! column = row !! column.
Proof.
  unfold key_cells. intros Hk%mapM_Ok_Forall2.
  induction Hk as [|c v columns k Hc%getitem_Ok _ IH]; intros Hin.
  - by apply elem_of_nil in Hin.
  - simpl. destruct (decide (c = column)) as [->|Hne].
    + by rewrite lookup_insert_eq.
    + rewrite lookup_insert_ne by done. apply IH.
      by apply elem_of_cons in Hin as [->|].
Qed.

(** A partial-aggregate row carries the key of the group it stands for. *)
Lemma partial_row_key (row : Row) columns aggs k rows :
  mapM (getitem row) columns = Ok k →
  mapM (getitem (partial_row columns aggs (k, rows))) columns = Ok k.
Proof.
  intros Hk. pose proof Hk as Hall%mapM_Ok_Forall2.
  apply mapM_Ok_Forall2, Forall2_same_length_lookup.
  apply Forall2_same_length_lookup in Hall as [Hlen Hall].
  split; [done|]. intros i c v Hc Hv.
  apply getitem_Ok, lookup_union_Some_l.
  rewrite (key_cells_lookup row) by eauto using list_elem_of_lookup_2.
  by apply getitem_Ok, (Hall i).
Qed.

Lemma ref_combine_keys format rows key aggs columns part :
  key ≠ KNone →
  key_column_names key = Ok columns →
  ref_combine (TableBlock format rows) key aggs = Ok part →
  ∃ out,
    part = TableBlock format out
    ∧ ∀ row, row ∈ out →
        ∃ k r, r ∈ rows
               ∧ mapM (getitem r) columns = Ok k
               ∧ key_of_row key row = Ok k.
Proof.
  intros Hkey Hcols Hc. unfold ref_combine in Hc. rewrite Hcols in Hc.
  simpl in Hc. apply result_bind_Ok in Hc as (keyed & Hkeyed & Hc).
  assert (part = TableBlock format
                   (partial_row columns aggs <$> group_adjacent keyed)) as ->.
  { destruct key; simpl in Hc; by injection Hc as <-. }
  eexists; split; [done|]. intros row (g & -> & Hg)%list_elem_of_fmap.
  apply group_adjacent_keys in Hg as (x & Hx & Hxg).
  apply keyed_rows_spec in Hkeyed as [-> Hkeys].
  exists g.1, x.2. split; [by apply list_elem_of_fmap_2|].
  rewrite <-Hxg. split; [by apply Hkeys|].
  unfold key_of_row. rewrite Hcols. simpl.
  rewrite (surjective_pairing g), <-Hxg.
  by apply (partial_row_key x.2), Hkeys.
Qed.

(** C2. What [map] returns has [N + 1] elements, where [N] is 1 without a
    key and the number of boundaries plus one with a key: first the [N]
    partial-aggregate blocks, the [i]-th being the combine of the [i]-th
    partition that [sort_and_partition] cut (or of the whole pruned block
    without a key), then the metadata as the one last element. *)
Theorem map_returns_partitions_then_metadata
    idx (block : Block) n boundaries key aggs w l w' :
  map idx block n boundaries key aggs w = Ok (l, w') →
  ∃ pruned partitions parts meta,
    _prune_unused_columns block key aggs = Ok pruned
    ∧ map_partitions pruned boundaries key = Ok partitions
    ∧ Forall2 (λ partition part, combine partition key aggs = Ok part)
        partitions parts
    ∧ l = (inl <$> parts) ++ [inr meta]
    ∧ length parts
      = (if decide (key = KNone) then 1%nat else S (length boundaries))
    ∧ length l
      = S (if decide (key = KNone) then 1%nat else S (length boundaries)).
Proof.
  intros Hm. apply (map_shape _ _ _ _ _ _ _ _ _ Hm).
  intros pruned partitions _. apply ref_sort_and_partition_length.
Qed.

(** C9. [reduce] needs a block: on the empty collection it raises the
    [IndexError] of [normalized_blocks[0]], so every call that returns was
    given at least one block. *)
Theorem reduce_requires_a_block key aggs batch_format partial_reduce w :
  reduce key aggs batch_format ([] : list Block) partial_reduce w
  = Raise IndexError
  ∧ (∀ (blocks : list Block) r w',
       reduce key aggs batch_format blocks partial_reduce w = Ok (r, w') →
       blocks ≠ []).
Proof.
  split; [done|]. by intros blocks r w' Hr ->.
Qed.

(** C7. With a key, every key of the [i]-th partition block [map] returns
    lies in the [i]-th boundary range: above boundary [i-1] and at most
    boundary [i], a missing boundary at either end standing for no bound. *)
Theorem map_partition_ranges idx block n boundaries key aggs w l w' i part :
  key ≠ KNone →
  map idx block n boundaries key aggs w = Ok (l, w') →
  l !! i = Some (inl part) →
  ∃ rows,
    table_rows part = Ok rows
    ∧ ∀ row, row ∈ rows →
        ∃ k, key_of_row key row = Ok k ∧ in_partition_range boundaries i k.
Proof.
  intros Hkey (pruned & partitions & parts & _ & Hs & Hc & -> & _)%map_Ok Hi.
  assert (parts !! i = Some part) as Hpart.
  { destruct (decide (i < length parts)%nat) as [Hlt|Hge].
    - rewrite lookup_app_l in Hi by (by rewrite length_fmap).
      rewrite list_lookup_fmap in Hi.
      destruct (parts !! i); by simplify_eq/=.
    - rewrite lookup_app_r in Hi by (rewrite length_fmap; lia).
      destruct (i - length (inl <$> parts))%nat; by simplify_eq/=. }
  assert (sort_and_partition pruned boundaries (mkSortKey key) = Ok partitions)
    as Hsort by (by destruct key).
  destruct pruned as [format rows|]; [|done].
  apply ref_sort_and_partition_Ok in Hsort
    as (columns & keyed & Hcols & Hkeyed & ->).
  apply mapM_Ok_Forall2 in Hc.
  destruct (Forall2_lookup_r _ _ _ _ _ Hc Hpart) as (p & Hp & Hcomb).
  rewrite list_lookup_fmap in Hp.
  destruct (partition_sorted _ _ !! i) as [pi|] eqn:Hpi; [|done].
  injection Hp as <-.
  apply (ref_combine_keys _ _ _ _ columns) in Hcomb as (out & -> & Hout);
    [|done..].
  exists out. split; [done|]. intros row (k & r & Hr & Hk & Hrow)%Hout.
  exists k. split; [done|].
  apply list_elem_of_fmap in Hr as (x & -> & Hx).
  eapply partition_sorted_range in Hx as [Hin Hrange];
    [|by apply (StronglySorted_merge_sort _)|done].
  rewrite merge_sort_Permutation in Hin.
  apply keyed_rows_spec in Hkeyed as [_ Hkeys].
  rewrite (Hkeys x Hin) in Hk. by injection Hk as <-.
Qed.

(** *** The merge of partial aggregates *)

Lemma ref_aggregate_combined_blocks_Ok self blocks key aggs fin w out meta w' :
  ref_aggregate_combined_blocks self blocks key aggs fin w
  = Ok ((out, meta), w') →
  ∃ format columns merged,
    table_format self = Ok format
    ∧ key_column_names key = Ok columns
    ∧ merged_states key aggs blocks = Ok merged
    ∧ out = TableBlock format
              (output_row columns aggs
                 <$> (if fin
                      then (λ e, (e.1, finalize_states aggs e.2)) <$> merged
                      else merged))
    ∧ meta = get_metadata out (task_exec_stats w).
Proof.
  unfold ref_aggregate_combined_blocks. intros Hr.
  apply Task_bind_Ok in Hr as (b & w1 & Hb & Hr).
  apply builder_Ok in Hb as [-> ->].
  apply Task_bind_Ok in Hr as (format & w2 & Hf & Hr).
  apply lift_Ok in Hf as [Hf ->].
  apply Task_bind_Ok in Hr as (columns & w3 & Hc & Hr).
  apply lift_Ok in Hc as [Hc ->].
  apply Task_bind_Ok in Hr as (merged & w4 & Hm & Hr).
  apply lift_Ok in Hm as [Hm ->].
  apply Task_bind_Ok in Hr as (stats & w5 & Hs & Hr).
  apply build_Ok in Hs as [-> ->]. simpl in Hr.
  injection Hr as <- <- <-.
  by exists format, columns, merged.
Qed.

Lemma finalize_states_lookup aggs s i agg si :
  aggs !! i = Some agg → s !! i = Some si →
  finalize_states aggs s !! i = Some (finalize agg si).
Proof.
  intros Hagg Hs. unfold finalize_states.
  by rewrite lookup_zip_with, Hagg, Hs.
Qed.

(** C4. What [reduce] returns for a non-empty collection of blocks is built
    from the merged per-key states of the normalized blocks, which do not
    depend on [partial_reduce]: when [partial_reduce] is false every state
    has gone through its aggregate's finalize, when it is true the rows hold
    the merged states as they are. *)
Theorem reduce_finalizes_unless_partial
    key aggs batch_format blocks partial_reduce w out meta w' :
  blocks ≠ [] →
  reduce key aggs batch_format blocks partial_reduce w = Ok ((out, meta), w') →
  ∃ normalized columns merged,
    normalize_block_types blocks batch_format = Ok normalized
    ∧ key_column_names key = Ok columns
    ∧ merged_states key aggs normalized = Ok merged
    ∧ table_rows out
      = Ok (output_row columns aggs
              <$> (if partial_reduce
                   then merged
                   else (λ e, (e.1, finalize_states aggs e.2)) <$> merged))
    ∧ ∀ e i agg s,
        e ∈ merged → aggs !! i = Some agg → e.2 !! i = Some s →
        finalize_states aggs e.2 !! i = Some (finalize agg s).
Proof.
  intros _ (first & normalized & Hn & Ha)%reduce_Ok.
  apply ref_aggregate_combined_blocks_Ok in Ha
    as (format & columns & merged & _ & Hc & Hm & -> & _).
  exists (first :: normalized), columns, merged.
  repeat split; try done.
  - by destruct partial_reduce.
  - intros e i agg s _. apply finalize_states_lookup.
Qed.

(** ** What two invocations share *)


(** ** The specification's scenario, run on the reference blocks *)

Example scenario_prune :
  _prune_unused_columns scenario_block (KStr "a") [Sum "b"] = Ok scenario_pruned.
Proof. vm_compute. reflexivity. Qed.

Example scenario_map :
  fst <$> map 0 scenario_block 2 [[5]] (KStr "a") [Sum "b"] (clock 7)
  = Ok (scenario_map_output 7).
Proof. vm_compute. reflexivity. Qed.

Example scenario_map_global :
  fst <$> map 0 scenario_block 1 [] KNone [Sum "b"] (clock 7)
  = Ok (scenario_global_output 7).
Proof. vm_compute. reflexivity. Qed.

Example scenario_reduce_final :
  fst <$> reduce (KStr "a") [Sum "b"; TwiceSum "b"] "pandas"
            scenario_mapper_outputs false (clock 7)
  = Ok (TableBlock Pandas [ {[ "a" := 1; "sum(b)" := 22; "twice_sum" := 44 ]} ],
        mkBlockMetadata 1 24 (mkBlockExecStats 7)).
Proof. vm_compute. reflexivity. Qed.

Example scenario_reduce_partial :
  fst <$> reduce (KStr "a") [Sum "b"; TwiceSum "b"] "pandas"
            scenario_mapper_outputs true (clock 7)
  = Ok (TableBlock Pandas [ {[ "a" := 1; "sum(b)" := 22; "twice_sum" := 22 ]} ],
        mkBlockMetadata 1 24 (mkBlockExecStats 7)).
Proof. vm_compute. reflexivity. Qed.

Example scenario_reduce_empty :
  reduce (KStr "a") [Sum "b"] "pandas" [] false (clock 7) = Raise IndexError.
Proof. reflexivity. Qed.

(** ** The properties at the scenario *)

(** The metadata of the scenario is that of the pruned block, 3 rows of 2
    cells; over the input block as passed it would count 3 rows of 3. *)
Lemma map_metadata_not_over_input_block :
  fst <$> map 0 scenario_block 2 [[5]] (KStr "a") [Sum "b"] (clock 7)
  = Ok (scenario_map_output 7)
  ∧ ∀ stats,
      last (scenario_map_output 7)
      ≠ Some (inr (get_metadata scenario_block stats)).
Proof.
  split; [vm_compute; reflexivity|].
  intros stats. vm_compute. intros [=].
Qed.

(** Witness of [map_metadata_over_pruned_block]: the scenario under a clock
    that advances by 7. *)
Lemma map_metadata_over_pruned_block_witness :
  map 0 scenario_block 2 [[5]] (KStr "a") [Sum "b"] (clock 7)
  = Ok (scenario_map_output 7, mkWorld (timeline (clock 7)) 2)
  ∧ ∃ pruned,
      _prune_unused_columns scenario_block (KStr "a") [Sum "b"] = Ok pruned
      ∧ last (scenario_map_output 7)
        = Some (inr (get_metadata pruned (task_exec_stats (clock 7))))
      ∧ wall_time_s (task_exec_stats (clock 7))
        = timeline (clock 7) 1 - timeline (clock 7) 0
      ∧ ticks (mkWorld (timeline (clock 7)) 2) = 2%nat.
Proof.
  split; [vm_compute; reflexivity|].
  apply (map_metadata_over_pruned_block 0 scenario_block 2 [[5]] (KStr "a")
           [Sum "b"] (clock 7)).
  vm_compute. reflexivity.
Defined.

(** Witness of [map_returns_partitions_then_metadata]: one boundary, two
    partitions and the metadata. *)
Lemma map_returns_partitions_then_metadata_witness :
  ∃ pruned partitions parts meta,
    _prune_unused_columns scenario_block (KStr "a") [Sum "b"] = Ok pruned
    ∧ map_partitions pruned [[5]] (KStr "a") = Ok partitions
    ∧ Forall2 (λ partition part, combine partition (KStr "a") [Sum "b"] = Ok part)
        partitions parts
    ∧ scenario_map_output 7 = (inl <$> parts) ++ [inr meta]
    ∧ length parts = 2%nat
    ∧ length (scenario_map_output 7) = 3%nat.
Proof.
  apply (map_returns_partitions_then_metadata 0 scenario_block 2 [[5]]
           (KStr "a") [Sum "b"] (clock 7) (scenario_map_output 7)
           (mkWorld (timeline (clock 7)) 2)).
  vm_compute. reflexivity.
Defined.

(** Witness of [map_without_key]: the scenario block summed over [b]
    without a key. *)
Lemma map_without_key_witness :
  (∃ pruned part,
     _prune_unused_columns scenario_block KNone [Sum "b"] = Ok pruned
     ∧ map_partitions pruned [[5]] KNone = Ok [pruned]
     ∧ combine pruned KNone [Sum "b"] = Ok part
     ∧ scenario_global_output 7
       = [inl part; inr (get_metadata pruned (task_exec_stats (clock 7)))])
  ∧ (∀ n' boundaries' f,
       map (accessor := with_sort_and_partition f)
         0 scenario_block n' boundaries' KNone [Sum "b"] (clock 7)
       = Ok (scenario_global_output 7, mkWorld (timeline (clock 7)) 2)).
Proof.
  apply (map_without_key 0 scenario_block 2 [[5]] [Sum "b"] (clock 7)).
  vm_compute. reflexivity.
Defined.

(** Witness of [reduce_finalizes_unless_partial]: the final reduce of the
    two mapper outputs doubles the merged sum of [TwiceSum]. *)
Lemma reduce_finalizes_unless_partial_witness :
  ∃ normalized columns merged,
    normalize_block_types scenario_mapper_outputs "pandas" = Ok normalized
    ∧ key_column_names (KStr "a") = Ok columns
    ∧ merged_states (KStr "a") [Sum "b"; TwiceSum "b"] normalized = Ok merged
    ∧ table_rows
        (TableBlock Pandas [ {[ "a" := 1; "sum(b)" := 22; "twice_sum" := 44 ]} ])
      = Ok (output_row columns [Sum "b"; TwiceSum "b"]
              <$> ((λ e, (e.1, finalize_states [Sum "b"; TwiceSum "b"] e.2))
                     <$> merged))
    ∧ ∀ e i agg s,
        e ∈ merged → [Sum "b"; TwiceSum "b"] !! i = Some agg →
        e.2 !! i = Some s →
        finalize_states [Sum "b"; TwiceSum "b"] e.2 !! i
        = Some (finalize agg s).
Proof.
  apply (reduce_finalizes_unless_partial (KStr "a") [Sum "b"; TwiceSum "b"]
           "pandas" scenario_mapper_outputs false (clock 7)
           (TableBlock Pandas
              [ {[ "a" := 1; "sum(b)" := 22; "twice_sum" := 44 ]} ])
           (mkBlockMetadata 1 24 (mkBlockExecStats 7))
           (mkWorld (timeline (clock 7)) 2)).
  - discriminate.
  - vm_compute. reflexivity.
Defined.

(** Witness of [prune_degrades_to_identity], one input for each of the four
    cases. *)
Lemma prune_degrades_to_identity_witness :
  _prune_unused_columns scenario_block KCallable [Sum "b"] = Ok scenario_block
  ∧ _prune_unused_columns scenario_block (KStr "a") [Sum "b"; TwiceSum "b"]
    = Ok scenario_block
  ∧ _prune_unused_columns (SimpleBlock [1; 6; 1]) (KStr "a") [Sum "b"]
    = Ok (SimpleBlock [1; 6; 1])
  ∧ _prune_unused_columns (TableBlock Arrow []) (KStr "a") [Sum "b"]
    = Ok (TableBlock Arrow []).
Proof.
  split; [|split; [|split]]; apply prune_degrades_to_identity.
  - left. reflexivity.
  - right. left. exists (TwiceSum "b").
    split; [|split; reflexivity].
    apply elem_of_cons. right. apply elem_of_cons. by left.
  - right. right. left. reflexivity.
  - right. right. right. reflexivity.
Defined.

(** Witness of [prune_projects_onto_needed]: key [a], a sum over [b] and a
    row count. *)
Lemma prune_projects_onto_needed_witness :
  _prune_unused_columns scenario_block (KStr "a") [Sum "b"; CountRows]
  = select scenario_block
      (elements (needed_columns (KStr "a") [Sum "b"; CountRows]))
  ∧ NoDup (elements (needed_columns (KStr "a") [Sum "b"; CountRows]))
  ∧ (∀ column,
       column ∈ elements (needed_columns (KStr "a") [Sum "b"; CountRows]) ↔
       column ∈ key_columns (KStr "a")
       ∨ ∃ agg, agg ∈ [Sum "b"; CountRows] ∧ on_key_str agg = Some column)
  ∧ needed_columns (KStr "a") [Sum "b"; CountRows]
    = needed_columns (KStr "a")
        (filter (λ agg, isinstance_Count agg = false) [Sum "b"; CountRows]).
Proof.
  apply (prune_projects_onto_needed scenario_block (KStr "a")
           [Sum "b"; CountRows]).
  - vm_compute. reflexivity.
  - reflexivity.
  - reflexivity.
Defined.

(** Witness of [prune_onto_zero_columns]: a row count without a key. *)
Lemma prune_onto_zero_columns_witness :
  needed_columns KNone [CountRows] = ∅
  ∧ _prune_unused_columns scenario_block KNone [CountRows]
    = select scenario_block [].
Proof.
  apply (prune_onto_zero_columns scenario_block [CountRows]).
  - constructor; [reflexivity|constructor].
  - reflexivity.
  - reflexivity.
Defined.

(** Witness of [map_partition_ranges]: partition 1 of the scenario holds the
    key 6, above the boundary 5. *)
Lemma map_partition_ranges_witness :
  ∃ rows,
    table_rows (TableBlock Arrow [ {[ "a" := 6; "sum(b)" := 20 ]} ]) = Ok rows
    ∧ ∀ row, row ∈ rows →
        ∃ k, key_of_row (KStr "a") row = Ok k ∧ in_partition_range [[5]] 1 k.
Proof.
  apply (map_partition_ranges 0 scenario_block 2 [[5]] (KStr "a") [Sum "b"]
           (clock 7) (scenario_map_output 7) (mkWorld (timeline (clock 7)) 2)).
  - discriminate.
  - vm_compute. reflexivity.
  - vm_compute. reflexivity.
Defined.

(** Witness of [reduce_requires_a_block]: the final reduce of the scenario,
    given no block and given the two mapper outputs. *)
Lemma reduce_requires_a_block_witness :
  reduce (KStr "a") [Sum "b"; TwiceSum "b"] "pandas" ([] : list Block)
    false (clock 7)
  = Raise IndexError
  ∧ scenario_mapper_outputs ≠ [].
Proof.
  destruct (reduce_requires_a_block (KStr "a") [Sum "b"; TwiceSum "b"]
              "pandas" false (clock 7)) as [Hempty Hgiven].
  split; [exact Hempty|].
  apply (Hgiven scenario_mapper_outputs
           (TableBlock Pandas
              [ {[ "a" := 1; "sum(b)" := 22; "twice_sum" := 44 ]} ],
            mkBlockMetadata 1 24 (mkBlockExecStats 7))
           (mkWorld (timeline (clock 7)) 2)).
  vm_compute. reflexivity.
Defined.



(** * Further properties of the tasks *)

(** ** Over any block accessor *)

Section more_tasks.
Context {Block : Type} {accessor : BlockAccessor Block}.

Lemma map_unfold idx block n boundaries key aggs w :
  map idx block n boundaries key aggs w
  = match _prune_unused_columns block key aggs with
    | Raise e => Raise e
    | Ok pruned =>
        match map_partitions pruned boundaries key with
        | Raise e => Raise e
        | Ok partitions =>
            match mapM (λ p, combine p key aggs) partitions with
            | Raise e => Raise e
            | Ok parts =>
                Ok ((inl <$> parts)
                      ++ [inr (get_metadata pruned (task_exec_stats w))],
                    mkWorld (timeline w) (S (S (ticks w))))
            end
        end
    end.
Proof.
  unfold map, map_partitions, mbind, Task_bind, lift. simpl.
  destruct (_prune_unused_columns block key aggs) as [pruned|]; [|done].
  destruct (match key with
            | KNone => Ok [pruned]
            | _ => sort_and_partition pruned boundaries (mkSortKey key)
            end) as [partitions|]; [|done].
  by destruct (mapM (λ p, combine p key aggs) partitions).
Qed.

(** X5. When pruning does not apply, [map] works on the input block as it
    was passed: the partitions are cut from it and the metadata it returns
    is its own. *)
Theorem map_without_pruning_measures_input
    idx block n boundaries key aggs w l w' :
  pruning_applies block key aggs = false →
  map idx block n boundaries key aggs w = Ok (l, w') →
  ∃ partitions parts,
    map_partitions block boundaries key = Ok partitions
    ∧ mapM (λ p, combine p key aggs) partitions = Ok parts
    ∧ l = (inl <$> parts) ++ [inr (get_metadata block (task_exec_stats w))].
Proof.
  intros Hno (pruned & partitions & parts & Hp & Hs & Hc & -> & _)%map_Ok.
  rewrite prune_unfold in Hp. unfold pruning_applies in Hno.
  rewrite Hno in Hp. injection Hp as <-. by exists partitions, parts.
Qed.

End more_tasks.

(** ** On the reference blocks *)

Lemma select_row_Ok columns (row row' : Row) :
  select_row columns row = Ok row' →
  row' ⊆ row
  ∧ dom row' = list_to_set columns
  ∧ ∀ column, column ∈ columns → row' !! column = row !! column.
Proof.
  unfold select_row.
  intros (cells & Hcells & [= <-])%result_bind_Ok.
  assert (∀ column, column ∈ columns →
            key_cells columns cells !! column = row !! column) as Hin
    by (intros; by apply key_cells_lookup).
  assert (dom (key_cells columns cells) =@{gset string} list_to_set columns)
    as Hdom.
  { unfold key_cells. rewrite dom_list_to_map_L, fst_zip; [done|].
    apply mapM_Ok_length in Hcells. lia. }
  split; [|done]. apply map_subseteq_spec. intros c v Hv.
  rewrite <-Hin; [done|].
  assert (c ∈ dom (key_cells columns cells)) as Hc by (apply elem_of_dom; eauto).
  rewrite Hdom in Hc. by apply elem_of_list_to_set in Hc.
Qed.

Lemma prune_table_Ok format rows key aggs pruned :
  _prune_unused_columns (TableBlock format rows) key aggs = Ok pruned →
  ∃ rows',
    pruned = TableBlock format rows'
    ∧ Forall2 (pruned_from (needed_columns key aggs)) rows rows'.
Proof.
  rewrite prune_unfold.
  destruct (_ && _ && _).
  - simpl. intros (rows' & Hrows & [= <-])%result_bind_Ok.
    exists rows'. split; [done|].
    apply mapM_Ok_Forall2 in Hrows.
    eapply Forall2_impl; [done|]. intros row row' (Hsub & _ & Hin)%select_row_Ok.
    split; [done|]. intros c Hc. apply Hin. by apply elem_of_elements.
  - intros [= <-]. exists rows. split; [done|].
    apply Forall_Forall2_diag, Forall_forall. by intros row _.
Qed.

Lemma prune_Ok_rows (block : Block) key aggs pruned :
  _prune_unused_columns block key aggs = Ok pruned →
  num_rows pruned = num_rows block
  ∧ match block with
    | TableBlock format rows =>
        ∃ rows',
          pruned = TableBlock format rows'
          ∧ Forall2 (pruned_from (needed_columns key aggs)) rows rows'
    | SimpleBlock _ => pruned = block
    end.
Proof.
  destruct block as [format rows|items].
  - intros (rows' & -> & Hrows)%prune_table_Ok. split; [|by exists rows'].
    simpl. by rewrite (Forall2_length _ _ _ Hrows).
  - rewrite prune_unfold. simpl. rewrite andb_false_r. by intros [= <-].
Qed.

(** *** The sort and the Partition Planner look at keys only *)

Section sort_parametric.
Context {A : Type} (R : relation A) `{∀ x y, Decision (R x y)}.
Context (Q : A → A → Prop).
Hypothesis R_respects_Q :
  ∀ x x' y y', Q x x' → Q y y' → (R x y ↔ R x' y').

Lemma list_merge_related l1 l1' l2 l2' :
  Forall2 Q l1 l1' → Forall2 Q l2 l2' →
  Forall2 Q (list_merge R l1 l2) (list_merge R l1' l2').
Proof.
  intros H1. revert l2 l2'.
  induction H1 as [|x1 x1' l1 l1' Hx1 H1 IH1]; intros l2 l2' H2.
  - by rewrite !list_merge_nil_l.
  - induction H2 as [|x2 x2' l2 l2' Hx2 H2 IH2].
    + rewrite !list_merge_nil_r. by constructor.
    + rewrite !list_merge_cons.
      destruct (decide (R x1 x2)) as [Hr|Hr].
      * rewrite decide_True by (by apply (R_respects_Q x1 x1' x2 x2')).
        constructor; [done|]. apply IH1. by constructor.
      * rewrite decide_False
          by (by rewrite <-(R_respects_Q x1 x1' x2 x2')).
        by constructor.
Qed.

Lemma merge_list_to_stack_related st st' l l' :
  Forall2 (option_Forall2 (Forall2 Q)) st st' → Forall2 Q l l' →
  Forall2 (option_Forall2 (Forall2 Q))
    (merge_list_to_stack R st l) (merge_list_to_stack R st' l').
Proof.
  intros Hst. revert l l'.
  induction Hst as [|o o' st st' Ho Hst IH]; intros l l' Hl; simpl.
  - by repeat constructor.
  - destruct Ho as [k k' Hk|].
    + constructor; [constructor|]. apply IH. by apply list_merge_related.
    + constructor; [by constructor|done].
Qed.

Lemma merge_stack_related st st' :
  Forall2 (option_Forall2 (Forall2 Q)) st st' →
  Forall2 Q (merge_stack R st) (merge_stack R st').
Proof.
  induction 1 as [|o o' st st' Ho _ IH]; simpl; [done|].
  destruct Ho as [k k' Hk|]; [by apply list_merge_related|done].
Qed.

Lemma merge_sort_related l l' :
  Forall2 Q l l' → Forall2 Q (merge_sort R l) (merge_sort R l').
Proof.
  unfold merge_sort.
  assert (∀ st st', Forall2 (option_Forall2 (Forall2 Q)) st st' →
            Forall2 Q l l' →
            Forall2 Q (merge_sort_aux R st l) (merge_sort_aux R st' l'))
    as Haux; [|by apply Haux].
  intros st st' Hst Hl. revert st st' Hst.
  induction Hl as [|x x' l l' Hx _ IH]; intros st st' Hst; simpl.
  - by apply merge_stack_related.
  - apply IH, merge_list_to_stack_related; [done|]. by repeat constructor.
Qed.

Lemma span_related (p p' : A → bool) l l' :
  (∀ x x', Q x x' → p x = p' x') →
  Forall2 Q l l' →
  Forall2 Q (span p l).1 (span p' l').1
  ∧ Forall2 Q (span p l).2 (span p' l').2.
Proof.
  intros Hp. induction 1 as [|x x' l l' Hx Hl [IH1 IH2]]; simpl; [done|].
  rewrite <-(Hp x x' Hx). destruct (p x).
  - destruct (span p l), (span p' l'). simpl in *. split; [by constructor|done].
  - simpl. split; [done|by constructor].
Qed.

End sort_parametric.

Lemma partition_sorted_related needed rows rows' boundaries :
  Forall2 (keyed_agree needed) rows rows' →
  Forall2 (Forall2 (keyed_agree needed))
    (partition_sorted rows boundaries) (partition_sorted rows' boundaries).
Proof.
  revert rows rows'.
  induction boundaries as [|b bs IH]; intros rows rows' Hrows; simpl.
  - by repeat constructor.
  - pose proof (span_related (keyed_agree needed)
                  (λ x, bool_decide (key_le x.1 b))
                  (λ x, bool_decide (key_le x.1 b)) rows rows') as [Hlo Hhi];
      [by intros x x' [-> _]|done|].
    destruct (span _ rows), (span _ rows'). simpl in *.
    constructor; [done|]. by apply IH.
Qed.

Lemma group_adjacent_related needed l l' :
  Forall2 (keyed_agree needed) l l' →
  Forall2 (λ g g', g.1 = g'.1 ∧ Forall2 (rows_agree needed) g.2 g'.2)
    (group_adjacent l) (group_adjacent l').
Proof.
  induction 1 as [|[k row] [k' row'] l l' [Hk Hrow] _ IH]; simpl; [done|].
  simpl in Hk, Hrow. subst k'.
  destruct IH as [|[k1 rows1] [k1' rows1'] gs gs' [Hk1 Hrows1] Hgs].
  - by repeat constructor.
  - simpl in Hk1, Hrows1. subst k1'.
    destruct (decide (k = k1)).
    + constructor; [|done]. split; [done|]. by constructor.
    + constructor; [by repeat constructor|]. by constructor.
Qed.

Lemma foldl_accumulate_agree needed agg (rows rows' : list Row) a :
  reads_own_column agg →
  (∀ column, on_key_str agg = Some column → column ∈ needed) →
  Forall2 (rows_agree needed) rows rows' →
  foldl (accumulate_row agg) a rows = foldl (accumulate_row agg) a rows'.
Proof.
  intros Hreads Hcol Hrows. revert a.
  induction Hrows as [|row row' rows rows' Hrow _ IH]; intros a; simpl; [done|].
  rewrite (Hreads a row row'); [done|]. intros c Hc. by apply Hrow, Hcol.
Qed.

Lemma partial_row_agree needed columns aggs k rows rows' :
  Forall reads_own_column aggs →
  (∀ agg column, agg ∈ aggs → on_key_str agg = Some column → column ∈ needed) →
  Forall2 (rows_agree needed) rows rows' →
  partial_row columns aggs (k, rows) = partial_row columns aggs (k, rows').
Proof.
  intros Hreads Hcols Hrows. unfold partial_row. simpl. f_equal. f_equal.
  apply list_fmap_ext. intros i agg Hagg%list_elem_of_lookup_2.
  rewrite Forall_forall in Hreads. f_equal.
  apply (foldl_accumulate_agree needed); eauto.
Qed.

(** *** Pruning does not change the partial aggregates *)

Lemma span_app {A} (p : A → bool) l : (span p l).1 ++ (span p l).2 = l.
Proof.
  induction l as [|x l IH]; simpl; [done|].
  destruct (p x); [|done]. destruct (span p l). simpl in *. by f_equal.
Qed.

Lemma partition_sorted_concat rows boundaries :
  mjoin (partition_sorted rows boundaries) = rows.
Proof.
  revert rows. induction boundaries as [|b bs IH]; intros rows; simpl.
  - by rewrite app_nil_r.
  - pose proof (span_app (λ x, bool_decide (key_le x.1 b)) rows) as Hspan.
    destruct (span _ rows) as [lo hi]. simpl in *. by rewrite IH.
Qed.

Lemma partition_sorted_elem rows boundaries part x :
  part ∈ partition_sorted rows boundaries → x ∈ part → x ∈ rows.
Proof.
  intros Hpart Hx. rewrite <-(partition_sorted_concat rows boundaries).
  apply list_elem_of_join. eauto.
Qed.

Lemma keyed_rows_recompute columns (part : list (KeyType * Row)) :
  (∀ x, x ∈ part → mapM (getitem x.2) columns = Ok x.1) →
  keyed_rows columns (snd <$> part) = Ok part.
Proof.
  intros Hkeys. apply mapM_Ok_Forall2.
  induction part as [|[k row] part IH]; [constructor|].
  rewrite fmap_cons. constructor.
  - pose proof (Hkeys (k, row) ltac:(by left)) as Hk. simpl in *.
    by rewrite Hk.
  - apply IH. intros x Hx. apply Hkeys. by right.
Qed.

Lemma keyed_rows_nil rows : keyed_rows [] rows = Ok ((λ row, ([], row)) <$> rows).
Proof.
  apply mapM_Ok_Forall2. induction rows; constructor; done.
Qed.

Lemma mapM_fmap_Ok {A B C} (f : B → result C) (g : A → B) (h : A → C) l :
  (∀ x, x ∈ l → f (g x) = Ok (h x)) → mapM f (g <$> l) = Ok (h <$> l).
Proof.
  intros Hall. apply mapM_Ok_Forall2.
  induction l as [|x l IH]; [constructor|].
  rewrite !fmap_cons. constructor; [apply Hall; by left|].
  apply IH. intros y Hy. apply Hall. by right.
Qed.

Lemma fmap_related {A B} (P : A → A → Prop) (f : A → B) l l' :
  (∀ x y, P x y → f x = f y) → Forall2 P l l' → f <$> l = f <$> l'.
Proof.
  intros Hf. induction 1 as [|x y l l' Hxy _ IH]; [done|].
  rewrite !fmap_cons. by rewrite (Hf x y Hxy), IH.
Qed.

(** With a key, what [map] combines out of a table is
    [combined_partitions] of its keyed rows. *)
Lemma map_parts_with_key format rows boundaries key aggs columns keyed :
  key ≠ KNone →
  key_column_names key = Ok columns →
  keyed_rows columns rows = Ok keyed →
  map_partitions (TableBlock format rows) boundaries key
    ≫= mapM (λ p, combine p key aggs)
  = Ok (combined_partitions format columns aggs boundaries keyed).
Proof.
  intros Hkey Hcols Hkeyed.
  assert (map_partitions (TableBlock format rows) boundaries key
          = Ok ((λ part, TableBlock format (snd <$> part))
                  <$> partition_sorted (merge_sort keyed_le keyed) boundaries))
    as ->.
  { destruct key; try done; simpl; unfold ref_sort_and_partition; simpl;
      simpl in Hcols; injection Hcols as <-; by rewrite Hkeyed. }
  simpl. apply mapM_fmap_Ok. intros part Hpart.
  simpl. unfold ref_combine. rewrite Hcols. simpl.
  rewrite keyed_rows_recompute.
  - simpl. by destruct key.
  - intros x Hx. apply keyed_rows_spec in Hkeyed as [_ Hkeys]. apply Hkeys.
    rewrite <-(merge_sort_Permutation keyed_le).
    by eapply partition_sorted_elem.
Qed.

Lemma combined_partitions_agree needed format columns aggs boundaries keyed keyed' :
  Forall reads_own_column aggs →
  (∀ agg column, agg ∈ aggs → on_key_str agg = Some column → column ∈ needed) →
  Forall2 (keyed_agree needed) keyed keyed' →
  combined_partitions format columns aggs boundaries keyed
  = combined_partitions format columns aggs boundaries keyed'.
Proof.
  intros Hreads Hcols Hkeyed. unfold combined_partitions.
  apply (fmap_related (Forall2 (keyed_agree needed))).
  - intros part part' Hpart. f_equal.
    apply (fmap_related
             (λ g g', g.1 = g'.1 ∧ Forall2 (rows_agree needed) g.2 g'.2)).
    + intros [k rs] [k' rs'] [Hk Hrs]. simpl in Hk, Hrs. subst k'.
      by apply (partial_row_agree needed).
    + by apply group_adjacent_related.
  - apply partition_sorted_related, (merge_sort_related keyed_le); [|done].
    intros x x' y y' [Hx _] [Hy _]. unfold keyed_le. by rewrite Hx, Hy.
Qed.

Lemma keyed_rows_agree needed columns rows rows' keyed' :
  (∀ column, column ∈ columns → column ∈ needed) →
  Forall2 (pruned_from needed) rows rows' →
  keyed_rows columns rows' = Ok keyed' →
  ∃ keyed,
    keyed_rows columns rows = Ok keyed
    ∧ Forall2 (keyed_agree needed) keyed keyed'.
Proof.
  intros Hcols Hrows. revert keyed'.
  induction Hrows as [|row row' rows rows' [_ Hrow] _ IH]; intros keyed' Hk.
  - injection Hk as <-. by exists [].
  - unfold keyed_rows in Hk. simpl in Hk.
    apply result_bind_Ok in Hk as ([k r] & Hx & Hk).
    apply result_bind_Ok in Hx as (k0 & Hk0 & [= <- <-]).
    apply result_bind_Ok in Hk as (keyed0 & Hkeyed0 & [= <-]).
    destruct (IH keyed0 Hkeyed0) as (keyed & Hkeyed & Hall).
    assert (mapM (getitem row) columns = Ok k0) as Hk0'.
    { apply mapM_Ok_Forall2. apply mapM_Ok_Forall2 in Hk0.
      apply Forall2_same_length_lookup in Hk0 as [Hlen Hk0].
      apply Forall2_same_length_lookup. split; [done|].
      intros i c v Hc Hv. specialize (Hk0 i c v Hc Hv).
      apply getitem_Ok. apply getitem_Ok in Hk0. rewrite <-Hk0. symmetry.
      apply Hrow, Hcols. by eapply list_elem_of_lookup_2. }
    exists ((k0, row) :: keyed). split.
    + unfold keyed_rows in *. simpl. by rewrite Hk0', Hkeyed.
    + constructor; [|done]. split; [done|]. intros c Hc. simpl. symmetry.
      by apply Hrow.
Qed.

Lemma key_columns_needed key aggs columns column :
  key_column_names key = Ok columns → column ∈ columns →
  column ∈ needed_columns key aggs.
Proof.
  unfold needed_columns. intros Hcols Hc. apply elem_of_union. left.
  destruct key; simpl in *; simplify_eq.
  - by apply elem_of_nil in Hc.
  - apply list_elem_of_singleton in Hc as ->. by apply elem_of_singleton.
  - by apply elem_of_list_to_set.
Qed.

Lemma agg_columns_needed key aggs agg column :
  agg ∈ aggs → on_key_str agg = Some column →
  column ∈ needed_columns key aggs.
Proof.
  intros Hagg Hc. unfold needed_columns. apply elem_of_union. right.
  apply elem_of_list_to_set, list_elem_of_omap. eauto.
Qed.

(** What [map] combines out of the rows of a table is what it combines out
    of rows pruned from them. *)
Lemma map_parts_of_pruned_rows format rows rows' boundaries key aggs parts :
  Forall reads_own_column aggs →
  Forall2 (pruned_from (needed_columns key aggs)) rows rows' →
  map_partitions (TableBlock format rows') boundaries key
    ≫= mapM (λ p, combine p key aggs) = Ok parts →
  map_partitions (TableBlock format rows) boundaries key
    ≫= mapM (λ p, combine p key aggs) = Ok parts.
Proof.
  intros Hreads Hrows Hparts.
  destruct (decide (key = KNone)) as [->|Hkey].
  - simpl in *. rewrite keyed_rows_nil in *. simpl in *.
    injection Hparts as <-. do 4 f_equal.
    apply (partial_row_agree (needed_columns KNone aggs)); [done| |].
    + intros agg c. apply agg_columns_needed.
    + eapply Forall2_impl; [done|]. intros row row' [_ Hrow] c Hc.
      symmetry. by apply Hrow.
  - destruct (key_column_names key) as [columns|e] eqn:Hcols.
    + destruct (keyed_rows columns rows') as [keyed'|e] eqn:Hkeyed'.
      * rewrite (map_parts_with_key _ _ _ _ _ columns keyed') in Hparts
          by done.
        injection Hparts as <-.
        destruct (keyed_rows_agree (needed_columns key aggs) columns
                    rows rows' keyed') as (keyed & Hkeyed & Hagree); [|done..|].
        { intros c. by apply key_columns_needed. }
        rewrite (map_parts_with_key _ _ _ _ _ columns keyed) by done.
        f_equal.
        apply (combined_partitions_agree (needed_columns key aggs));
          [done| |done].
        intros agg c. apply agg_columns_needed.
      * exfalso. destruct key; try done; simpl in Hparts, Hcols;
          unfold ref_sort_and_partition in Hparts; simpl in Hparts;
          injection Hcols as <-; by rewrite Hkeyed' in Hparts.
    + exfalso. destruct key; done.
Qed.

(** X8. Pruning does not change what [map] aggregates: when key and
    aggregates name at least one column, so that the selection keeps a
    column, and every aggregate that leaves pruning on reads no cell but
    the one in its own column, the partial-aggregate blocks [map] returns
    are the ones it returns with column selection switched off; only the
    metadata, measured on the pruned block, may differ. *)
Theorem map_parts_unchanged_by_pruning
    idx (block : Block) n boundaries key aggs w l w' :
  needed_columns key aggs ≠ ∅ →
  (∀ agg, agg ∈ aggs → agg_prunable agg = true → reads_own_column agg) →
  map idx block n boundaries key aggs w = Ok (l, w') →
  ∃ parts meta meta',
    l = (inl <$> parts) ++ [inr meta]
    ∧ map (accessor := with_select (λ b _, Ok b))
        idx block n boundaries key aggs w
      = Ok ((inl <$> parts) ++ [inr meta'], w').
Proof.
  intros _ Hreads (pruned & partitions & parts & Hp & Hs & Hc & -> & ->)%map_Ok.
  exists parts, (get_metadata pruned (task_exec_stats w)),
    (get_metadata block (task_exec_stats w)).
  split; [done|].
  assert (map_partitions block boundaries key
            ≫= mapM (λ p, combine p key aggs) = Ok parts) as Hunpruned.
  { destruct (prune_eligible key aggs) eqn:Hel.
    - destruct block as [format rows|items].
      + apply prune_table_Ok in Hp as (rows' & -> & Hrows).
        apply (map_parts_of_pruned_rows format rows rows'); [|done|].
        * apply Forall_forall. intros agg Hagg. apply Hreads; [done|].
          unfold prune_eligible in Hel.
          apply andb_true_iff in Hel as [_ Hall].
          rewrite forallb_forall in Hall. by apply Hall, list_elem_of_In.
        * by rewrite Hs.
      + apply prune_Ok_rows in Hp as [_ ->]. by rewrite Hs.
    - rewrite prune_unfold, Hel in Hp. injection Hp as <-. by rewrite Hs. }
  rewrite (map_unfold (accessor := with_select (λ b _, Ok b))).
  assert (_prune_unused_columns (accessor := with_select (λ b _, Ok b))
            block key aggs = Ok block) as ->.
  { rewrite (prune_unfold (accessor := with_select (λ b _, Ok b))).
    by destruct (_ && _ && _). }
  change (@map_partitions _ (with_select (λ b _, Ok b)) block boundaries key)
    with (map_partitions block boundaries key).
  destruct (map_partitions block boundaries key) as [partitions0|]; [|done].
  change (mapM (λ p, @combine _ (with_select (λ b _, Ok b)) p key aggs)
            partitions0)
    with (mapM (λ p, combine p key aggs) partitions0).
  change (mapM (λ p, combine p key aggs) partitions0 = Ok parts) in Hunpruned.
  by rewrite Hunpruned.
Qed.

(** Witness of [map_parts_unchanged_by_pruning]: the scenario, where column
    [c] is pruned. *)
Lemma map_parts_unchanged_by_pruning_witness :
  ∃ parts meta meta',
    scenario_map_output 7 = (inl <$> parts) ++ [inr meta]
    ∧ map (accessor := with_select (λ b _, Ok b))
        0 scenario_block 2 [[5]] (KStr "a") [Sum "b"] (clock 7)
      = Ok ((inl <$> parts) ++ [inr meta'], mkWorld (timeline (clock 7)) 2).
Proof.
  apply (map_parts_unchanged_by_pruning 0 scenario_block 2 [[5]] (KStr "a")
           [Sum "b"] (clock 7)).
  - intros Hnone. apply (f_equal elements) in Hnone.
    vm_compute in Hnone. discriminate.
  - intros agg Hagg _. apply list_elem_of_singleton in Hagg as ->.
    intros a row row' Hrow. simpl. by rewrite (Hrow "b" eq_refl).
  - vm_compute. reflexivity.
Defined.

(** *** The keys of the partition blocks *)

Lemma key_le_lt_trans a b c : key_le a b → key_lt b c → key_lt a c.
Proof.
  unfold key_lt, key_le. intros Hab Hbc.
  destruct (trichotomy (@lexico KeyType _) a c) as [Hlt|[->|Hgt]]; [done..|].
  destruct Hab. by trans c.
Qed.

Lemma key_le_ne_lt a b : key_le a b → a ≠ b → key_lt a b.
Proof.
  unfold key_lt, key_le. intros Hab Hne.
  by destruct (trichotomy (@lexico KeyType _) a b) as [Hlt|[->|Hgt]].
Qed.

Lemma key_lt_le a b : key_lt a b → key_le a b.
Proof.
  unfold key_lt, key_le. intros Hab Hba.
  by apply (irreflexivity (@lexico KeyType _) a); trans b.
Qed.

Global Instance key_lt_transitive : Transitive key_lt.
Proof. intros a b c ??. unfold key_lt in *. by trans b. Qed.

(** On rows sorted by key a boundary cuts cleanly: the keys before the cut
    are at most the boundary, the keys after it are above. *)
Lemma span_sorted_bounds (b : KeyType) (rows : list (KeyType * Row)) :
  StronglySorted keyed_le rows →
  Forall (λ x, key_le x.1 b) (span (λ x, bool_decide (key_le x.1 b)) rows).1
  ∧ Forall (λ x, key_lt b x.1) (span (λ x, bool_decide (key_le x.1 b)) rows).2.
Proof.
  intros Hsorted.
  destruct (span _ rows) as [lo hi] eqn:Hspan.
  apply span_spec in Hspan as (-> & Hlo & Hhi). simpl. split.
  - eapply Forall_impl; [done|]. intros x. apply (bool_decide_eq_true_1 _).
  - apply StronglySorted_app_1_r in Hsorted.
    destruct hi as [|y hi]; [constructor|].
    specialize (Hhi y eq_refl). apply (bool_decide_eq_false_1 _) in Hhi.
    assert (key_lt b y.1) as Hby.
    { unfold key_le in Hhi. by destruct (decide (lexico b y.1)). }
    constructor; [done|].
    apply StronglySorted_inv in Hsorted as [_ Hy].
    eapply Forall_impl; [done|]. intros x Hx.
    by eapply key_lt_le_trans.
Qed.

Lemma group_adjacent_has_key l x :
  x ∈ l → x.1 ∈ (group_adjacent l).*1.
Proof.
  induction l as [|[k row] l IH]; intros Hx; [by apply elem_of_nil in Hx|].
  simpl. apply elem_of_cons in Hx as [->|Hx].
  - destruct (group_adjacent l) as [|[k' rows] groups]; [by left|].
    destruct (decide (k = k')); by left.
  - specialize (IH Hx).
    destruct (group_adjacent l) as [|[k' rows] groups];
      [by apply elem_of_nil in IH|].
    destruct (decide (k = k')) as [->|]; [done|]. by right.
Qed.

Lemma group_adjacent_key_elem l k :
  k ∈ (group_adjacent l).*1 ↔ k ∈ l.*1.
Proof.
  rewrite !list_elem_of_fmap. split.
  - intros (g & -> & (x & Hx & Hk)%group_adjacent_keys). eauto.
  - intros (x & -> & Hx%group_adjacent_has_key).
    by apply list_elem_of_fmap in Hx.
Qed.

(** Grouping rows sorted by key leaves each key once, in increasing
    order. *)
Lemma group_adjacent_keys_sorted l :
  StronglySorted keyed_le l → StronglySorted key_lt (group_adjacent l).*1.
Proof.
  induction 1 as [|[k row] l Hsorted IH Hk]; simpl; [constructor|].
  assert (Forall (key_le k) (group_adjacent l).*1) as Hle.
  { apply Forall_forall. intros k' (x & -> & Hx)%group_adjacent_key_elem%list_elem_of_fmap.
    rewrite Forall_forall in Hk. by apply (Hk x). }
  destruct (group_adjacent l) as [|[k' rows] groups]; simpl in *.
  - by repeat constructor.
  - destruct (decide (k = k')) as [->|Hne]; simpl; [done|].
    apply StronglySorted_inv in IH as [IH Hk'].
    apply Forall_cons in Hle as [Hkk' _].
    assert (key_lt k k') as Hlt by (by apply key_le_ne_lt).
    constructor; [by constructor|]. constructor; [done|].
    eapply Forall_impl; [done|]. intros k'' ?. by trans k'.
Qed.

(** The keys of all partitions, group after group, partition after
    partition: each key once, in increasing order. *)
Lemma partition_group_keys_sorted rows boundaries :
  StronglySorted keyed_le rows →
  StronglySorted key_lt
    (mjoin ((λ part, (group_adjacent part).*1)
              <$> partition_sorted rows boundaries)).
Proof.
  revert rows. induction boundaries as [|b bs IH]; intros rows Hsorted; simpl.
  - rewrite app_nil_r. by apply group_adjacent_keys_sorted.
  - destruct (span_sorted_bounds b rows Hsorted) as [Hlo Hhi].
    pose proof (span_app (λ x, bool_decide (key_le x.1 b)) rows) as Happ.
    destruct (span _ rows) as [lo hi]. simpl in *. subst rows.
    apply StronglySorted_app in Hsorted as (_ & Hslo & Hshi).
    apply StronglySorted_app_2.
    + intros k1 k2 Hk1 Hk2.
      apply group_adjacent_key_elem, list_elem_of_fmap in Hk1 as (x1 & -> & Hx1).
      apply list_elem_of_join in Hk2 as (ks & Hk2 & Hks).
      apply list_elem_of_fmap in Hks as (part & -> & Hpart).
      apply group_adjacent_key_elem, list_elem_of_fmap in Hk2 as (x2 & -> & Hx2).
      rewrite Forall_forall in Hlo, Hhi.
      eapply key_le_lt_trans; [by apply Hlo|].
      apply Hhi. by eapply partition_sorted_elem.
    + by apply group_adjacent_keys_sorted.
    + by apply IH.
Qed.

Lemma partition_group_keys_elem rows boundaries k :
  k ∈ mjoin ((λ part, (group_adjacent part).*1)
               <$> partition_sorted rows boundaries)
  ↔ k ∈ rows.*1.
Proof.
  rewrite <-(partition_sorted_concat rows boundaries) at 2.
  rewrite list_elem_of_join, list_elem_of_fmap. split.
  - intros (ks & Hk & (part & -> & Hpart)%list_elem_of_fmap).
    apply group_adjacent_key_elem, list_elem_of_fmap in Hk as (x & -> & Hx).
    exists x. split; [done|]. apply list_elem_of_join. eauto.
  - intros (x & -> & (part & Hx & Hpart)%list_elem_of_join).
    exists (group_adjacent part).*1. split.
    + apply group_adjacent_key_elem, list_elem_of_fmap. eauto.
    + apply list_elem_of_fmap. eauto.
Qed.

Lemma keyed_rows_key_elem key columns rows keyed k :
  key_column_names key = Ok columns →
  keyed_rows columns rows = Ok keyed →
  k ∈ keyed.*1 ↔ ∃ row, row ∈ rows ∧ key_of_row key row = Ok k.
Proof.
  intros Hcols [-> Hkeys]%keyed_rows_spec.
  unfold key_of_row. rewrite Hcols. simpl. rewrite list_elem_of_fmap. split.
  - intros (x & -> & Hx). exists x.2. split; [|by apply Hkeys].
    apply list_elem_of_fmap. eauto.
  - intros (row & (x & -> & Hx)%list_elem_of_fmap & Hk).
    exists x. split; [|done]. rewrite (Hkeys x Hx) in Hk. by injection Hk.
Qed.

(** X9. With a key, the keys of the partition blocks [map] returns, read
    block after block and row after row, come each once and in increasing
    order: no key twice in a block or in two blocks. They are exactly the
    keys of the rows of the input block: pruning, sorting, partitioning and
    combining neither drop a key nor make one up. *)
Theorem map_keys_sorted_and_complete
    idx (block : Block) n boundaries key aggs w l w' :
  key ≠ KNone →
  map idx block n boundaries key aggs w = Ok (l, w') →
  ∃ rows parts meta out_rows keys,
    table_rows block = Ok rows
    ∧ l = (inl <$> parts) ++ [inr meta]
    ∧ mapM table_rows parts = Ok out_rows
    ∧ mapM (key_of_row key) (mjoin out_rows) = Ok keys
    ∧ StronglySorted key_lt keys
    ∧ ∀ k, k ∈ keys ↔ ∃ row, row ∈ rows ∧ key_of_row key row = Ok k.
Proof.
  intros Hkey (pruned & partitions & parts & Hp & Hs & Hc & -> & _)%map_Ok.
  destruct block as [format rows|items].
  2:{ apply prune_Ok_rows in Hp as [_ ->]. by destruct key. }
  apply prune_table_Ok in Hp as (rows' & -> & Hrows).
  assert (sort_and_partition (TableBlock format rows') boundaries (mkSortKey key)
          = Ok partitions) as Hsort by (by destruct key).
  apply ref_sort_and_partition_Ok in Hsort
    as (columns & keyed' & Hcols & Hkeyed' & _).
  assert (parts = combined_partitions format columns aggs boundaries keyed')
    as ->.
  { pose proof (map_parts_with_key format rows' boundaries key aggs columns
                  keyed' Hkey Hcols Hkeyed') as Hparts.
    rewrite Hs in Hparts.
    change (mapM (λ p, combine p key aggs) partitions = Ok
              (combined_partitions format columns aggs boundaries keyed'))
      in Hparts.
    rewrite Hc in Hparts. by injection Hparts. }
  set (sorted := merge_sort keyed_le keyed').
  exists rows, (combined_partitions format columns aggs boundaries keyed'),
    (get_metadata (TableBlock format rows') (task_exec_stats w)),
    ((λ part, partial_row columns aggs <$> group_adjacent part)
       <$> partition_sorted sorted boundaries),
    (mjoin ((λ part, (group_adjacent part).*1)
              <$> partition_sorted sorted boundaries)).
  split; [done|]. split; [done|]. split; [by apply mapM_fmap_Ok|].
  split; [|split].
  - apply mapM_Ok_Forall2, Forall2_join, Forall2_fmap, Forall_Forall2_diag.
    apply Forall_forall. intros part Hpart.
    apply Forall2_fmap, Forall_Forall2_diag, Forall_forall.
    intros [k rs] Hg. simpl.
    apply group_adjacent_keys in Hg as (x & Hx & Hk). simpl in Hk. subst k.
    unfold key_of_row. rewrite Hcols. simpl.
    apply (partial_row_key x.2).
    apply keyed_rows_spec in Hkeyed' as [_ Hkeys]. apply Hkeys.
    rewrite <-(merge_sort_Permutation keyed_le).
    by eapply partition_sorted_elem.
  - apply partition_group_keys_sorted, (StronglySorted_merge_sort _).
  - intros k. rewrite partition_group_keys_elem.
    unfold sorted. rewrite (merge_sort_Permutation keyed_le).
    destruct (keyed_rows_agree (needed_columns key aggs) columns rows rows'
                keyed') as (keyed & Hkeyed & Hagree); [|done..|].
    { intros c. by apply key_columns_needed. }
    rewrite <-(keyed_rows_key_elem key columns rows keyed) by done.
    assert (keyed.*1 = keyed'.*1) as ->; [|done].
    apply (fmap_related (keyed_agree (needed_columns key aggs))); [|done].
    by intros x y [Hxy _].
Qed.

(** Witness of [map_keys_sorted_and_complete]: the scenario, with the keys
    1 and 6 out of the rows keyed 1, 6 and 1. *)
Lemma map_keys_sorted_and_complete_witness :
  ∃ rows parts meta out_rows keys,
    table_rows scenario_block = Ok rows
    ∧ scenario_map_output 7 = (inl <$> parts) ++ [inr meta]
    ∧ mapM table_rows parts = Ok out_rows
    ∧ mapM (key_of_row (KStr "a")) (mjoin out_rows) = Ok keys
    ∧ StronglySorted key_lt keys
    ∧ ∀ k, k ∈ keys ↔
           ∃ row, row ∈ rows ∧ key_of_row (KStr "a") row = Ok k.
Proof.
  apply (map_keys_sorted_and_complete 0 scenario_block 2 [[5]] (KStr "a")
           [Sum "b"] (clock 7) (scenario_map_output 7)
           (mkWorld (timeline (clock 7)) 2)).
  - discriminate.
  - vm_compute. reflexivity.
Defined.

(** *** The keys of the block [reduce] returns *)

Lemma merge_into_key_elem aggs k s acc k' :
  k' ∈ (merge_into aggs k s acc).*1 ↔ k' = k ∨ k' ∈ acc.*1.
Proof.
  induction acc as [|[k0 s0] acc IH]; simpl.
  - rewrite list_elem_of_singleton, elem_of_nil. tauto.
  - destruct (decide (k = k0)) as [->|Hne]; simpl.
    + rewrite !elem_of_cons. tauto.
    + destruct (decide (key_lt k k0)); simpl.
      * rewrite !elem_of_cons. tauto.
      * rewrite !elem_of_cons, IH. tauto.
Qed.

(** The merge keeps its accumulator sorted by key, each key once. *)
Lemma merge_into_sorted aggs k s acc :
  StronglySorted key_lt acc.*1 →
  StronglySorted key_lt (merge_into aggs k s acc).*1.
Proof.
  induction acc as [|[k0 s0] acc IH]; simpl; intros Hsorted.
  - by repeat constructor.
  - apply StronglySorted_inv in Hsorted as [Hsorted Hk0].
    destruct (decide (k = k0)) as [->|Hne]; simpl; [by constructor|].
    destruct (decide (key_lt k k0)) as [Hlt|Hnlt]; simpl.
    + constructor; [by constructor|]. constructor; [done|].
      eapply Forall_impl; [done|]. intros k' ?. by trans k0.
    + constructor; [by apply IH|].
      apply Forall_forall. intros k' [->|Hk']%merge_into_key_elem.
      * apply key_le_ne_lt; [done|congruence].
      * rewrite Forall_forall in Hk0. by apply Hk0.
Qed.

Lemma merged_entries_sorted aggs (entries acc : list (KeyType * list Z)) :
  StronglySorted key_lt acc.*1 →
  StronglySorted key_lt
    (foldl (λ acc e, merge_into aggs e.1 e.2 acc) acc entries).*1
  ∧ ∀ k, k ∈ (foldl (λ acc e, merge_into aggs e.1 e.2 acc) acc entries).*1
         ↔ k ∈ acc.*1 ∨ k ∈ entries.*1.
Proof.
  revert acc. induction entries as [|e entries IH]; intros acc Hacc; simpl.
  - split; [done|]. intros k. rewrite elem_of_nil. tauto.
  - destruct (IH (merge_into aggs e.1 e.2 acc)) as [Hsorted Hkeys];
      [by apply merge_into_sorted|].
    split; [done|]. intros k.
    rewrite Hkeys, merge_into_key_elem, elem_of_cons. tauto.
Qed.

Lemma merged_states_Ok key aggs (blocks : list Block) merged :
  merged_states key aggs blocks = Ok merged →
  ∃ columns tables entries,
    key_column_names key = Ok columns
    ∧ mapM table_rows blocks = Ok tables
    ∧ Forall2 (λ (row : Row) (e : KeyType * list Z),
                 mapM (getitem row) columns = Ok e.1
                 ∧ partial_states aggs row = Ok e.2)
        (concat tables) entries
    ∧ merged = foldl (λ acc e, merge_into aggs e.1 e.2 acc) [] entries.
Proof.
  unfold merged_states. intros Hm.
  apply result_bind_Ok in Hm as (columns & Hcols & Hm).
  apply result_bind_Ok in Hm as (tables & Htables & Hm).
  apply result_bind_Ok in Hm as (entries & Hentries & [= <-]).
  exists columns, tables, entries. repeat split; try done.
  apply mapM_Ok_Forall2 in Hentries.
  eapply Forall2_impl; [done|]. intros row e He. simpl in He.
  apply result_bind_Ok in He as (k & Hk & He).
  by apply result_bind_Ok in He as (s & Hs & [= <-]).
Qed.

Lemma normalize_keeps_tables (blocks normalized : list Block) batch_format :
  ref_normalize_block_types blocks batch_format = Ok normalized →
  ∃ tables,
    mapM table_rows blocks = Ok tables
    ∧ mapM table_rows normalized = Ok tables.
Proof.
  unfold ref_normalize_block_types. intros Hn%mapM_Ok_Forall2.
  induction Hn as [|block nb blocks normalized Hb _ (tables & Ht1 & Ht2)].
  - by exists [].
  - apply result_bind_Ok in Hb as (rows & Hrows & [= <-]).
    exists (rows :: tables). simpl. by rewrite Hrows, Ht1, Ht2.
Qed.

Lemma output_row_key (row : Row) columns aggs k s :
  mapM (getitem row) columns = Ok k →
  mapM (getitem (output_row columns aggs (k, s))) columns = Ok k.
Proof.
  intros Hk. pose proof Hk as Hall%mapM_Ok_Forall2.
  apply mapM_Ok_Forall2, Forall2_same_length_lookup.
  apply Forall2_same_length_lookup in Hall as [Hlen Hall].
  split; [done|]. intros i c v Hc Hv.
  apply getitem_Ok, lookup_union_Some_l.
  rewrite (key_cells_lookup row) by eauto using list_elem_of_lookup_2.
  by apply getitem_Ok, (Hall i).
Qed.

(** What [reduce] returns, seen through its keys. *)
Lemma reduce_Ok_keys
    key aggs batch_format (blocks : list Block) partial_reduce w out meta w' :
  reduce key aggs batch_format blocks partial_reduce w = Ok ((out, meta), w') →
  ∃ tables out_rows keys,
    mapM table_rows blocks = Ok tables
    ∧ table_rows out = Ok out_rows
    ∧ mapM (key_of_row key) out_rows = Ok keys
    ∧ StronglySorted key_lt keys
    ∧ (∀ k, k ∈ keys ↔
            ∃ row, row ∈ concat tables ∧ key_of_row key row = Ok k)
    ∧ meta_num_rows meta = Z.of_nat (length keys).
Proof.
  intros (first & normalized & Hn & Ha)%reduce_Ok.
  apply ref_aggregate_combined_blocks_Ok in Ha
    as (format & columns & merged & _ & Hcols & Hm & -> & ->).
  apply normalize_keeps_tables in Hn as (tables & Htables & Htables').
  apply merged_states_Ok in Hm
    as (columns' & tables' & entries & Hcols' & Ht & Hentries & ->).
  rewrite Hcols in Hcols'. injection Hcols' as <-.
  change (mapM table_rows (first :: normalized) = Ok tables') in Ht.
  rewrite Htables' in Ht. injection Ht as <-.
  set (merged := foldl (λ acc e, merge_into aggs e.1 e.2 acc) [] entries).
  set (final := if negb partial_reduce
                then (λ e, (e.1, finalize_states aggs e.2)) <$> merged
                else merged).
  destruct (merged_entries_sorted aggs entries []) as [Hsorted Hkeys];
    [constructor|].
  fold merged in Hsorted, Hkeys.
  assert (final.*1 = merged.*1) as Hfinal.
  { unfold final. destruct (negb partial_reduce); [|done].
    rewrite <-list_fmap_compose. by apply list_fmap_ext. }
  assert (∀ k, k ∈ merged.*1 ↔
               ∃ row, row ∈ concat tables ∧ mapM (getitem row) columns = Ok k)
    as Hrows.
  { intros k. rewrite Hkeys, elem_of_nil, list_elem_of_fmap. split.
    - intros [[]|(e & -> & He)].
      apply list_elem_of_lookup in He as [i He].
      destruct (Forall2_lookup_r _ _ _ _ _ Hentries He) as (row & Hrow & Hk & _).
      exists row. split; [by eapply list_elem_of_lookup_2|done].
    - intros (row & Hrow & Hk). right.
      apply list_elem_of_lookup in Hrow as [i Hrow].
      destruct (Forall2_lookup_l _ _ _ _ _ Hentries Hrow) as (e & He & Hk' & _).
      exists e. split; [congruence|by eapply list_elem_of_lookup_2]. }
  exists tables, (output_row columns aggs <$> final), final.*1.
  split; [done|]. split; [done|]. split; [|split; [|split]].
  - apply mapM_Ok_Forall2, Forall2_fmap, Forall_Forall2_diag, Forall_forall.
    intros [k s] He. simpl. unfold key_of_row. rewrite Hcols. simpl.
    assert (k ∈ merged.*1) as (row & _ & Hk)%Hrows.
    { rewrite <-Hfinal. apply list_elem_of_fmap. by exists (k, s). }
    by apply (output_row_key row).
  - by rewrite Hfinal.
  - intros k. rewrite Hfinal, Hrows. unfold key_of_row. rewrite Hcols. done.
  - simpl. by rewrite !length_fmap.
Qed.

(** X10. Over mapper outputs that each hold their rows in strictly
    increasing key order, as [map] returns them, the block [reduce] returns
    holds each key once, its rows in increasing key order, and its keys are
    exactly the keys found in the rows of the mapper outputs, whatever
    order the outputs came in and whether or not the reduce is partial; the
    metadata counts one row for each key. *)
Theorem reduce_keys_sorted_and_complete
    key aggs batch_format (blocks : list Block) partial_reduce w out meta w' :
  (∀ block rows block_keys,
     block ∈ blocks →
     table_rows block = Ok rows →
     mapM (key_of_row key) rows = Ok block_keys →
     StronglySorted key_lt block_keys) →
  reduce key aggs batch_format blocks partial_reduce w = Ok ((out, meta), w') →
  ∃ tables out_rows keys,
    mapM table_rows blocks = Ok tables
    ∧ table_rows out = Ok out_rows
    ∧ mapM (key_of_row key) out_rows = Ok keys
    ∧ StronglySorted key_lt keys
    ∧ (∀ k, k ∈ keys ↔
            ∃ row, row ∈ concat tables ∧ key_of_row key row = Ok k)
    ∧ meta_num_rows meta = Z.of_nat (length keys).
Proof. intros _. apply reduce_Ok_keys. Qed.

(** Witness of [reduce_keys_sorted_and_complete]: the final reduce of the
    two mapper outputs of the scenario. *)
Lemma reduce_keys_sorted_and_complete_witness :
  ∃ tables out_rows keys,
    mapM table_rows scenario_mapper_outputs = Ok tables
    ∧ table_rows
        (TableBlock Pandas [ {[ "a" := 1; "sum(b)" := 22; "twice_sum" := 44 ]} ])
      = Ok out_rows
    ∧ mapM (key_of_row (KStr "a")) out_rows = Ok keys
    ∧ StronglySorted key_lt keys
    ∧ (∀ k, k ∈ keys ↔
            ∃ row, row ∈ concat tables ∧ key_of_row (KStr "a") row = Ok k)
    ∧ meta_num_rows (mkBlockMetadata 1 24 (mkBlockExecStats 7))
      = Z.of_nat (length keys).
Proof.
  apply (reduce_keys_sorted_and_complete (KStr "a") [Sum "b"; TwiceSum "b"]
           "pandas" scenario_mapper_outputs false (clock 7)
           (TableBlock Pandas
              [ {[ "a" := 1; "sum(b)" := 22; "twice_sum" := 44 ]} ])
           (mkBlockMetadata 1 24 (mkBlockExecStats 7))
           (mkWorld (timeline (clock 7)) 2)).
  - intros block rows block_keys Hblock Hrows Hkeys.
    apply elem_of_cons in Hblock as [->|Hblock];
      [|apply list_elem_of_singleton in Hblock as ->];
      injection Hrows as <-; vm_compute in Hkeys; injection Hkeys as <-;
      repeat constructor.
  - vm_compute. reflexivity.
Defined.

(** *** Aggregation without a key *)

Lemma map_without_key_Ok idx (block : Block) n boundaries aggs w b meta w' :
  map idx block n boundaries KNone aggs w = Ok ([inl b; inr meta], w') →
  ∃ format row, b = TableBlock format [row].
Proof.
  intros (pruned & partitions & parts & _ & Hs & Hc & Hl & _)%map_Ok.
  injection Hs as <-. simpl in Hc.
  apply result_bind_Ok in Hc as (part & Hpart & [= <-]).
  simpl in Hl. injection Hl as -> _.
  destruct pruned as [format rows|]; [|done].
  unfold ref_combine in Hpart. simpl in Hpart.
  rewrite keyed_rows_nil in Hpart. injection Hpart as <-. eauto.
Qed.

(** X11. Aggregation without a key gives one row: every block [map]
    returns without a key holds exactly one row, and [reduce] without a key
    over any number of such blocks returns a block of exactly one row, with
    a metadata that counts one. *)
Theorem global_aggregation_single_row
    aggs batch_format (blocks : list Block) partial_reduce w out meta w' :
  (∀ b, b ∈ blocks →
        ∃ idx block n boundaries w0 meta0 w0',
          map idx block n boundaries KNone aggs w0
          = Ok ([inl b; inr meta0], w0')) →
  reduce KNone aggs batch_format blocks partial_reduce w = Ok ((out, meta), w') →
  (∀ b, b ∈ blocks → ∃ format row, b = TableBlock format [row])
  ∧ ∃ row, table_rows out = Ok [row] ∧ meta_num_rows meta = 1.
Proof.
  intros Hmapped Hr.
  assert (∀ b, b ∈ blocks → ∃ format row, b = TableBlock format [row]) as Hone.
  { intros b (idx & block & n & bs & w0 & meta0 & w0' & Hm)%Hmapped.
    by eapply map_without_key_Ok. }
  split; [done|].
  pose proof Hr as (first & normalized & Hn & _)%reduce_Ok.
  apply reduce_Ok_keys in Hr
    as (tables & out_rows & keys & Ht & Hout & Hkeys & Hsorted & Hk & Hmeta).
  assert (∀ k, k ∈ keys → k = []) as Hnil.
  { intros k (row & _ & Hrow)%Hk. by injection Hrow. }
  assert ([] ∈ keys) as Hin.
  { destruct blocks as [|b blocks]; [done|].
    destruct (Hone b) as (format & row & ->); [by left|].
    simpl in Ht. apply result_bind_Ok in Ht as (tables0 & _ & [= <-]).
    apply Hk. exists row. split; [|done]. simpl. by left. }
  assert (keys = [[]]) as ->.
  { destruct keys as [|k1 [|k2 keys]].
    - by apply elem_of_nil in Hin.
    - by rewrite (Hnil k1) by (by left).
    - apply StronglySorted_inv in Hsorted as [_ Hk1].
      apply Forall_cons in Hk1 as [Hlt _].
      rewrite (Hnil k1), (Hnil k2) in Hlt by (by repeat constructor).
      by compute in Hlt. }
  apply mapM_Ok_length in Hkeys.
  destruct out_rows as [|row [|row' out_rows]]; try done.
  by exists row.
Qed.

(** Witness of [global_aggregation_single_row]: two map tasks summing [b]
    over the scenario block, reduced to the sum 70. *)
Lemma global_aggregation_single_row_witness :
  (∀ b, b ∈ [TableBlock Arrow [ {[ "sum(b)" := 35 ]} ];
             TableBlock Arrow [ {[ "sum(b)" := 35 ]} ]] →
        ∃ format row, b = TableBlock format [row])
  ∧ ∃ row,
      table_rows (TableBlock Pandas [ {[ "sum(b)" := 70 ]} ]) = Ok [row]
      ∧ meta_num_rows (mkBlockMetadata 1 8 (mkBlockExecStats 7)) = 1.
Proof.
  apply (global_aggregation_single_row [Sum "b"] "pandas"
           [TableBlock Arrow [ {[ "sum(b)" := 35 ]} ];
            TableBlock Arrow [ {[ "sum(b)" := 35 ]} ]]
           false (clock 7)
           (TableBlock Pandas [ {[ "sum(b)" := 70 ]} ])
           (mkBlockMetadata 1 8 (mkBlockExecStats 7))
           (mkWorld (timeline (clock 7)) 2)).
  - intros b Hb.
    exists 0, scenario_block, 1, [], (clock 7),
      (mkBlockMetadata 3 24 (mkBlockExecStats 7)),
      (mkWorld (timeline (clock 7)) 2).
    apply elem_of_cons in Hb as [->|Hb];
      [|apply list_elem_of_singleton in Hb as ->]; vm_compute; reflexivity.
  - vm_compute. reflexivity.
Defined.

(** *** Pruning twice *)

Lemma mapM_ext_elem {A B} (f g : A → result B) l :
  (∀ x, x ∈ l → f x = g x) → mapM f l = mapM g l.
Proof.
  induction l as [|x l IH]; intros Hall; [done|]. simpl.
  rewrite (Hall x) by (by left). rewrite IH; [done|].
  intros y Hy. apply Hall. by right.
Qed.

Lemma select_row_again columns (row row' : Row) :
  select_row columns row = Ok row' → select_row columns row' = Ok row'.
Proof.
  unfold select_row. intros (cells & Hcells & [= <-])%result_bind_Ok.
  rewrite (mapM_ext_elem _ (getitem row)), Hcells; [done|].
  intros c Hc. unfold getitem.
  change (list_to_map (zip columns cells)) with (key_cells columns cells).
  by rewrite (key_cells_lookup row columns cells c Hcells Hc).
Qed.

(** X13. Column pruning is idempotent: pruning the block that pruning
    returned, for the same key and aggregates, returns it unchanged. *)
Theorem prune_idempotent (block : Block) key aggs pruned :
  _prune_unused_columns block key aggs = Ok pruned →
  _prune_unused_columns pruned key aggs = Ok pruned.
Proof.
  intros Hp. destruct block as [format rows|items].
  2:{ apply prune_Ok_rows in Hp as [_ ->]. rewrite prune_unfold. simpl.
      by rewrite andb_false_r. }
  rewrite prune_unfold in Hp.
  destruct (prune_eligible key aggs
            && isinstance_TableBlockAccessor (TableBlock format rows)
            && bool_decide (0 < num_rows (TableBlock format rows))) eqn:Hcond.
  - simpl in Hp. apply result_bind_Ok in Hp as (rows' & Hrows & [= <-]).
    rewrite prune_unfold.
    assert (num_rows (TableBlock format rows')
            = num_rows (TableBlock format rows)) as Hlen.
    { simpl. by rewrite (mapM_Ok_length _ _ _ Hrows). }
    rewrite Hlen.
    change (isinstance_TableBlockAccessor (TableBlock format rows'))
      with (isinstance_TableBlockAccessor (TableBlock format rows)).
    rewrite Hcond. simpl.
    assert (mapM (select_row (elements (needed_columns key aggs))) rows'
            = Ok rows') as ->; [|done].
    apply mapM_Ok_Forall2, Forall_Forall2_diag, Forall_forall.
    intros row' Hrow'. apply mapM_Ok_Forall2 in Hrows.
    apply list_elem_of_lookup in Hrow' as [i Hi].
    destruct (Forall2_lookup_r _ _ _ _ _ Hrows Hi) as (row & _ & Hsel).
    by eapply select_row_again.
  - injection Hp as <-. by rewrite prune_unfold, Hcond.
Qed.

(** Witness of [prune_idempotent]: the scenario block, pruned of column
    [c]. *)
Lemma prune_idempotent_witness :
  _prune_unused_columns scenario_pruned (KStr "a") [Sum "b"] = Ok scenario_pruned.
Proof.
  apply (prune_idempotent scenario_block (KStr "a") [Sum "b"]).
  vm_compute. reflexivity.
Defined.

(** ** The further properties at the scenario *)

(** Witness of [map_without_pruning_measures_input]: with a custom
    aggregate the metadata counts the 3 rows of 3 cells of the scenario
    block. *)
Lemma map_without_pruning_measures_input_witness :
  ∃ partitions parts,
    map_partitions scenario_block [[5]] (KStr "a") = Ok partitions
    ∧ mapM (λ p, combine p (KStr "a") [TwiceSum "b"]) partitions = Ok parts
    ∧ [ inl (TableBlock Arrow [ {[ "a" := 1; "twice_sum" := 15 ]} ]);
        inl (TableBlock Arrow [ {[ "a" := 6; "twice_sum" := 20 ]} ]);
        inr (mkBlockMetadata 3 72 (mkBlockExecStats 7)) ]
      = (inl <$> parts)
        ++ [inr (get_metadata scenario_block (task_exec_stats (clock 7)))].
Proof.
  apply (map_without_pruning_measures_input 0 scenario_block 2 [[5]]
           (KStr "a") [TwiceSum "b"] (clock 7) _
           (mkWorld (timeline (clock 7)) 2)).
  - vm_compute. reflexivity.
  - vm_compute. reflexivity.
Defined.

(** *** Reducing in stages *)

Section merge_algebra.
Context (aggs : list AggregateFn).
Hypothesis merges_associative : Forall merge_associative aggs.

Local Abbreviation states := (gmap KeyType (list Z)).
Local Abbreviation combine_states :=
  (union_with (λ s0 s : list Z, Some (merge_states aggs s0 s))).

Lemma merge_states_assoc a b c :
  merge_states aggs (merge_states aggs a b) c
  = merge_states aggs a (merge_states aggs b c).
Proof.
  unfold merge_states. revert a b c.
  induction merges_associative as [|agg aggs' Hagg _ IH]; intros a b c.
  - done.
  - destruct a as [|x a], b as [|y b], c as [|z c]; simpl; try done.
    rewrite Hagg, IH; [done|]. by apply Forall_cons in merges_associative as [_ ?].
Qed.

Lemma merge_states_length a b :
  length a = length aggs → length b = length aggs →
  length (merge_states aggs a b) = length aggs.
Proof.
  unfold merge_states. intros Ha Hb.
  rewrite length_zip_with, length_zip. lia.
Qed.

Lemma upsert_states_union (m : states) e :
  upsert_states aggs m e = combine_states m {[e.1 := e.2]}.
Proof.
  apply map_eq. intros k. unfold upsert_states.
  rewrite lookup_union_with.
  destruct (decide (e.1 = k)) as [<-|Hne].
  - rewrite lookup_insert_eq, lookup_singleton_eq. by destruct (m !! e.1).
  - rewrite lookup_insert_ne, lookup_singleton_ne by done.
    by destruct (m !! k).
Qed.

Lemma combine_states_assoc (m1 m2 m3 : states) :
  combine_states (combine_states m1 m2) m3
  = combine_states m1 (combine_states m2 m3).
Proof.
  apply map_eq. intros k. rewrite !lookup_union_with.
  destruct (m1 !! k), (m2 !! k), (m3 !! k); simpl; try done.
  by rewrite merge_states_assoc.
Qed.

Lemma combine_states_empty_l (m : states) : combine_states ∅ m = m.
Proof.
  apply map_eq. intros k. rewrite lookup_union_with, lookup_empty.
  by destruct (m !! k).
Qed.

(** Upserting entries one by one is combining with the map they build. *)
Lemma foldl_upsert_combine (m : states) entries :
  foldl (upsert_states aggs) m entries
  = combine_states m (foldl (upsert_states aggs) ∅ entries).
Proof.
  revert m. induction entries as [|e entries IH] using rev_ind; intros m.
  - simpl. apply map_eq. intros k. rewrite lookup_union_with, lookup_empty.
    by destruct (m !! k).
  - rewrite !foldl_app. simpl.
    rewrite !upsert_states_union, IH. by rewrite combine_states_assoc.
Qed.

Lemma merge_into_to_map k s0 (acc : list (KeyType * list Z)) :
  StronglySorted key_lt acc.*1 →
  list_to_map (merge_into aggs k s0 acc)
  =@{states} upsert_states aggs (list_to_map acc) (k, s0).
Proof.
  unfold upsert_states. simpl.
  induction acc as [|[k1 s1] acc IH]; simpl; intros Hsorted.
  - by rewrite lookup_empty.
  - apply StronglySorted_inv in Hsorted as [Hsorted Hk1].
    destruct (decide (k = k1)) as [->|Hne]; simpl.
    + by rewrite lookup_insert_eq, insert_insert_eq.
    + rewrite lookup_insert_ne by done.
      destruct (decide (key_lt k k1)) as [Hlt|Hnlt]; simpl.
      * assert (list_to_map acc !! k =@{option (list Z)} None) as ->; [|done].
        apply not_elem_of_list_to_map. intros Hk.
        rewrite Forall_forall in Hk1. specialize (Hk1 k Hk).
        apply (irreflexivity (@lexico KeyType _) k). by trans k1.
      * rewrite IH by done. by rewrite insert_insert_ne.
Qed.

Lemma merged_to_map entries (acc : list (KeyType * list Z)) :
  StronglySorted key_lt acc.*1 →
  list_to_map (foldl (λ acc e, merge_into aggs e.1 e.2 acc) acc entries)
  =@{states} foldl (upsert_states aggs) (list_to_map acc) entries.
Proof.
  revert acc. induction entries as [|[k s0] entries IH]; intros acc Hacc; [done|].
  simpl. rewrite IH by (by apply merge_into_sorted).
  by rewrite merge_into_to_map.
Qed.

Lemma foldl_upsert_fresh (m : states) (l : list (KeyType * list Z)) :
  NoDup l.*1 → (∀ k, k ∈ l.*1 → m !! k = None) →
  foldl (upsert_states aggs) m l = m ∪ list_to_map l.
Proof.
  revert m. induction l as [|[k s0] l IH]; intros m Hnodup Hfresh; simpl.
  - by rewrite (right_id_L ∅ (∪)).
  - apply NoDup_cons in Hnodup as [Hk Hnodup].
    rewrite IH; [|done|].
    + unfold upsert_states. simpl. rewrite (Hfresh k) by (by left).
      rewrite <-insert_union_l, <-insert_union_r; [done|].
      apply Hfresh. by left.
    + intros k' Hk'. unfold upsert_states. simpl.
      rewrite lookup_insert_ne by (intros ->; done).
      apply Hfresh. by right.
Qed.

Lemma sorted_keys_NoDup (l : list KeyType) :
  StronglySorted key_lt l → NoDup l.
Proof.
  induction 1 as [|k l _ IH Hk]; constructor; [|done].
  intros Hin. rewrite Forall_forall in Hk.
  by apply (irreflexivity (@lexico KeyType _) k), Hk.
Qed.

Lemma sorted_by_key (l : list (KeyType * list Z)) :
  StronglySorted key_lt l.*1 → StronglySorted (λ x y, key_lt x.1 y.1) l.
Proof.
  induction l as [|x l IH]; [constructor|]. rewrite fmap_cons.
  intros [Hl Hx]%StronglySorted_inv. constructor; [by apply IH|].
  apply Forall_forall. intros y Hy. rewrite Forall_forall in Hx.
  apply Hx. by apply list_elem_of_fmap_2.
Qed.

(** Two accumulators sorted by key, each key once, that hold the same
    states are the same list. *)
Lemma sorted_states_eq (l1 l2 : list (KeyType * list Z)) :
  StronglySorted key_lt l1.*1 → StronglySorted key_lt l2.*1 →
  list_to_map l1 =@{states} list_to_map l2 → l1 = l2.
Proof.
  intros H1 H2 Hmap.
  apply (StronglySorted_unique_strong (λ x y, key_lt x.1 y.1)).
  - intros x y _ _ Hxy Hyx. exfalso.
    apply (irreflexivity (@lexico KeyType _) x.1). by trans y.1.
  - by apply sorted_by_key.
  - by apply sorted_by_key.
  - apply list_to_map_inj; [by apply sorted_keys_NoDup..|done].
Qed.

(** Merging entries that were merged beforehand is merging the entries. *)
Lemma merge_premerged (acc entries : list (KeyType * list Z)) :
  StronglySorted key_lt acc.*1 →
  foldl (λ acc e, merge_into aggs e.1 e.2 acc) acc (merge_entries aggs entries)
  = foldl (λ acc e, merge_into aggs e.1 e.2 acc) acc entries.
Proof.
  intros Hacc.
  destruct (merged_entries_sorted aggs entries []) as [Hsorted _];
    [constructor|].
  apply sorted_states_eq.
  - by apply merged_entries_sorted.
  - by apply merged_entries_sorted.
  - rewrite !merged_to_map by done.
    rewrite (foldl_upsert_combine _ (merge_entries aggs entries)).
    rewrite (foldl_upsert_combine _ entries). f_equal.
    rewrite foldl_upsert_fresh;
      [|by apply sorted_keys_NoDup|intros; apply lookup_empty].
    rewrite (left_id_L ∅ (∪)). unfold merge_entries.
    by rewrite merged_to_map by constructor.
Qed.

Lemma merge_entries_groups (groups : list (list (KeyType * list Z))) :
  merge_entries aggs (mjoin (merge_entries aggs <$> groups))
  = merge_entries aggs (mjoin groups).
Proof.
  unfold merge_entries at 1 3.
  assert (∀ acc, StronglySorted key_lt acc.*1 →
    foldl (λ acc e, merge_into aggs e.1 e.2 acc) acc
      (mjoin (merge_entries aggs <$> groups))
    = foldl (λ acc e, merge_into aggs e.1 e.2 acc) acc (mjoin groups))
    as Hall; [|apply Hall; constructor].
  induction groups as [|g groups IH]; intros acc Hacc; [done|].
  simpl. rewrite !foldl_app, merge_premerged by done.
  apply IH. by apply merged_entries_sorted.
Qed.

End merge_algebra.

Lemma concat_mjoin {A} (l : list (list A)) : concat l = mjoin l.
Proof. induction l as [|x l IH]; [done|]. simpl. by rewrite IH. Qed.

Lemma mapM_app_Ok {A B} (f : A → result B) l1 l2 k1 k2 :
  mapM f l1 = Ok k1 → mapM f l2 = Ok k2 → mapM f (l1 ++ l2) = Ok (k1 ++ k2).
Proof.
  rewrite !mapM_Ok_Forall2. apply Forall2_app.
Qed.

Lemma row_entry_Ok columns aggs row e :
  row_entry columns aggs row = Ok e →
  mapM (getitem row) columns = Ok e.1
  ∧ partial_states aggs row = Ok e.2
  ∧ length e.2 = length aggs.
Proof.
  unfold row_entry. intros (k & Hk & He)%result_bind_Ok.
  apply result_bind_Ok in He as (s0 & Hs & [= <-]). simpl.
  split; [done|]. split; [done|]. by eapply mapM_Ok_length.
Qed.

Lemma merged_states_unfold key aggs (blocks : list Block) :
  merged_states key aggs blocks
  = (columns ← key_column_names key;
     tables ← mapM table_rows blocks;
     entries ← mapM (row_entry columns aggs) (concat tables);
     mret (merge_entries aggs entries)).
Proof. done. Qed.

Lemma merge_into_lengths aggs k s0 (acc : list (KeyType * list Z)) :
  length s0 = length aggs →
  Forall (λ e, length e.2 = length aggs) acc →
  Forall (λ e, length e.2 = length aggs) (merge_into aggs k s0 acc).
Proof.
  intros Hs. induction 1 as [|[k1 s1] acc Hs1 Hacc IH]; simpl.
  - by repeat constructor.
  - destruct (decide (k = k1)); [|destruct (decide (key_lt k k1))].
    + constructor; [|done]. simpl. unfold merge_states.
      rewrite length_zip_with, length_zip. simpl in Hs1. lia.
    + by repeat constructor.
    + by constructor.
Qed.

Lemma merge_entries_lengths aggs (entries : list (KeyType * list Z)) :
  Forall (λ e, length e.2 = length aggs) entries →
  Forall (λ e, length e.2 = length aggs) (merge_entries aggs entries).
Proof.
  unfold merge_entries.
  assert (∀ acc, Forall (λ e : KeyType * list Z, length e.2 = length aggs) acc →
            Forall (λ e, length e.2 = length aggs) entries →
            Forall (λ e, length e.2 = length aggs)
              (foldl (λ acc e, merge_into aggs e.1 e.2 acc) acc entries))
    as Hall; [|by apply Hall].
  induction entries as [|e entries IH]; intros acc Hacc Hentries; [done|].
  apply Forall_cons in Hentries as [He Hentries]. simpl.
  apply IH; [|done]. by apply merge_into_lengths.
Qed.

Lemma merge_entries_key_elem aggs (entries : list (KeyType * list Z)) k :
  k ∈ (merge_entries aggs entries).*1 ↔ k ∈ entries.*1.
Proof.
  unfold merge_entries.
  destruct (merged_entries_sorted aggs entries []) as [_ Hk]; [constructor|].
  rewrite Hk, elem_of_nil. tauto.
Qed.

(** A row of a partial reduce gives back, as its entry, the key and the
    states it was made of, as long as the names of the aggregates are
    distinct and none is the name of a key column. *)
Lemma output_row_entry (row : Row) columns aggs e :
  NoDup (name <$> aggs) →
  (∀ agg, agg ∈ aggs → name agg ∉ columns) →
  mapM (getitem row) columns = Ok e.1 →
  length e.2 = length aggs →
  row_entry columns aggs (output_row columns aggs e) = Ok e.
Proof.
  intros Hnodup Hnames Hk Hlen. destruct e as [k s0]. simpl in *.
  unfold row_entry. rewrite (output_row_key row) by done. simpl.
  assert (partial_states aggs (output_row columns aggs (k, s0)) = Ok s0)
    as ->; [|done].
  apply mapM_Ok_Forall2, Forall2_same_length_lookup. split; [done|].
  intros i agg si Hagg Hsi. apply getitem_Ok.
  unfold output_row. simpl. rewrite lookup_union_r.
  - apply elem_of_list_to_map.
    + rewrite fst_zip by (rewrite length_fmap; lia). done.
    + apply list_elem_of_lookup. exists i.
      rewrite lookup_zip_with, list_lookup_fmap, Hagg, Hsi. done.
  - apply not_elem_of_list_to_map. intros Hin.
    apply list_elem_of_fmap in Hin as ([c v] & Hc & Hin). simpl in Hc.
    apply (Hnames agg); [by eapply list_elem_of_lookup_2|].
    rewrite Hc. by eapply elem_of_zip_l.
Qed.

Lemma normalize_Ok (blocks : list Block) batch_format tables :
  mapM table_rows blocks = Ok tables →
  ref_normalize_block_types blocks batch_format
  = Ok (TableBlock (target_format batch_format) <$> tables)
  ∧ mapM table_rows (TableBlock (target_format batch_format) <$> tables)
    = Ok tables.
Proof.
  intros Ht%mapM_Ok_Forall2. unfold ref_normalize_block_types.
  rewrite !mapM_Ok_Forall2.
  induction Ht as [|block rows blocks tables Hb _ [IH1 IH2]];
    [by split; constructor|].
  rewrite fmap_cons. split; constructor; try done. simpl. by rewrite Hb.
Qed.

(** What [reduce] returns, in terms of the entries of the rows it is
    given. *)
Lemma reduce_Ok_entries
    key aggs batch_format (blocks : list Block) partial_reduce w out meta w' :
  reduce key aggs batch_format blocks partial_reduce w = Ok ((out, meta), w') →
  blocks ≠ []
  ∧ ∃ columns tables entries,
      key_column_names key = Ok columns
      ∧ mapM table_rows blocks = Ok tables
      ∧ mapM (row_entry columns aggs) (concat tables) = Ok entries
      ∧ out = reduced_block batch_format columns aggs partial_reduce
                (merge_entries aggs entries)
      ∧ meta = get_metadata out (task_exec_stats w).
Proof.
  intros Hr. split.
  { intros ->. by apply reduce_Ok in Hr as (? & ? & [=] & _). }
  apply reduce_Ok in Hr as (first & normalized & Hn & Ha).
  apply ref_aggregate_combined_blocks_Ok in Ha
    as (format & columns & merged & Hf & Hcols & Hm & -> & ->).
  pose proof Hn as (tables & Ht & Ht')%normalize_keeps_tables.
  destruct (normalize_Ok blocks batch_format tables Ht) as [Hn' _].
  change (ref_normalize_block_types blocks batch_format
          = Ok (first :: normalized)) in Hn.
  rewrite Hn' in Hn. destruct tables as [|rows tables]; [done|].
  injection Hn as <- <-. injection Hf as <-.
  rewrite merged_states_unfold in Hm.
  apply result_bind_Ok in Hm as (columns' & Hcols' & Hm).
  rewrite Hcols in Hcols'. injection Hcols' as <-.
  apply result_bind_Ok in Hm as (tables' & Ht'' & Hm).
  assert (Ok tables' = Ok (rows :: tables)) as [= ->]
    by (rewrite <-Ht''; exact Ht').
  apply result_bind_Ok in Hm as (entries & Hentries & [= <-]).
  by exists columns, (rows :: tables), entries.
Qed.

Lemma Task_bind_run {A B} (m : Task A) (f : A → Task B) w a w1 :
  m w = Ok (a, w1) → (m ≫= f) w = f a w1.
Proof. unfold mbind, Task_bind. by intros ->. Qed.

Lemma ref_aggregate_returns self blocks key aggs fin w format columns merged :
  table_format self = Ok format →
  key_column_names key = Ok columns →
  merged_states key aggs blocks = Ok merged →
  ref_aggregate_combined_blocks self blocks key aggs fin w
  = Ok ((TableBlock format
           (output_row columns aggs
              <$> (if fin
                   then (λ e, (e.1, finalize_states aggs e.2)) <$> merged
                   else merged)),
         get_metadata
           (TableBlock format
              (output_row columns aggs
                 <$> (if fin
                      then (λ e, (e.1, finalize_states aggs e.2)) <$> merged
                      else merged)))
           (task_exec_stats w)),
        mkWorld (timeline w) (S (S (ticks w)))).
Proof.
  intros Hf Hcols Hm. unfold ref_aggregate_combined_blocks.
  erewrite Task_bind_run by reflexivity.
  erewrite Task_bind_run by (rewrite Hf; reflexivity).
  erewrite Task_bind_run by (rewrite Hcols; reflexivity).
  erewrite Task_bind_run by (rewrite Hm; reflexivity).
  erewrite Task_bind_run by reflexivity.
  reflexivity.
Qed.

Lemma reduce_returns
    key aggs batch_format (blocks : list Block) partial_reduce w
    columns tables entries :
  blocks ≠ [] →
  key_column_names key = Ok columns →
  mapM table_rows blocks = Ok tables →
  mapM (row_entry columns aggs) (concat tables) = Ok entries →
  reduce key aggs batch_format blocks partial_reduce w
  = Ok ((reduced_block batch_format columns aggs partial_reduce
           (merge_entries aggs entries),
         get_metadata
           (reduced_block batch_format columns aggs partial_reduce
              (merge_entries aggs entries))
           (task_exec_stats w)),
        mkWorld (timeline w) (S (S (ticks w)))).
Proof.
  intros Hne Hcols Ht Hentries.
  destruct (normalize_Ok blocks batch_format tables Ht) as [Hn Ht'].
  destruct tables as [|rows tables].
  { apply mapM_Ok_length in Ht. by destruct blocks. }
  unfold reduce.
  erewrite Task_bind_run
    by (change (normalize_block_types blocks batch_format)
          with (ref_normalize_block_types blocks batch_format);
        rewrite Hn; reflexivity).
  rewrite fmap_cons.
  apply (ref_aggregate_returns _ _ _ _ _ _ (target_format batch_format) columns);
    [done..|].
  rewrite merged_states_unfold, Hcols.
  change (mapM table_rows
            (TableBlock (target_format batch_format) rows
               :: (TableBlock (target_format batch_format) <$> tables)))
    with (mapM table_rows
            (TableBlock (target_format batch_format) <$> rows :: tables)).
  unfold mbind at 1, result_bind at 1. rewrite Ht'.
  unfold mbind at 1, result_bind at 1. by rewrite Hentries.
Qed.

(** The rows of a partial reduce, read back as entries, are the merged
    entries they were made of. *)
Lemma partial_rows_entries columns aggs (rows : list Row) entries :
  NoDup (name <$> aggs) →
  (∀ agg, agg ∈ aggs → name agg ∉ columns) →
  mapM (row_entry columns aggs) rows = Ok entries →
  mapM (row_entry columns aggs)
    (output_row columns aggs <$> merge_entries aggs entries)
  = Ok (merge_entries aggs entries).
Proof.
  intros Hnodup Hnames Hentries.
  apply mapM_Ok_Forall2, Forall2_fmap_l, Forall_Forall2_diag, Forall_forall.
  intros e He. apply mapM_Ok_Forall2 in Hentries.
  assert (e.1 ∈ (merge_entries aggs entries).*1) as Hk
    by (by apply list_elem_of_fmap_2).
  apply merge_entries_key_elem, list_elem_of_fmap in Hk as (e0 & Hk & He0).
  apply list_elem_of_lookup in He0 as [i Hi].
  destruct (Forall2_lookup_r _ _ _ _ _ Hentries Hi)
    as (row & _ & (Hrow & _ & _)%row_entry_Ok).
  apply (output_row_entry row); [done..|congruence|].
  assert (Forall (λ e, length e.2 = length aggs) (merge_entries aggs entries))
    as Hlen.
  { apply merge_entries_lengths, Forall_forall. intros e1 He1.
    apply list_elem_of_lookup in He1 as [j Hj].
    by destruct (Forall2_lookup_r _ _ _ _ _ Hentries Hj)
      as (row1 & _ & (_ & _ & ?)%row_entry_Ok). }
  rewrite Forall_forall in Hlen. by apply Hlen.
Qed.

(** X14. Reducing in stages gives the block of one reduce over everything:
    when the merges of the aggregates are associative, their names are
    distinct and none is the name of a key column, a reduce over the
    partial reduces of groups of mapper outputs returns the very block that
    a reduce over all the mapper outputs returns, be this last stage
    partial or final. *)
Theorem reduce_in_stages
    key aggs batch_format (groups : list (list Block)) (partials : list Block)
    partial_reduce w w0 :
  Forall merge_associative aggs →
  NoDup (name <$> aggs) →
  (∀ columns agg,
     key_column_names key = Ok columns → agg ∈ aggs → name agg ∉ columns) →
  groups ≠ [] →
  Forall2 (λ group partial,
             ∃ w1 meta w1',
               reduce key aggs batch_format group true w1
               = Ok ((partial, meta), w1'))
    groups partials →
  ∃ out,
    reduce key aggs batch_format partials partial_reduce w
    = Ok ((out, get_metadata out (task_exec_stats w)),
          mkWorld (timeline w) (S (S (ticks w))))
    ∧ reduce key aggs batch_format (concat groups) partial_reduce w0
      = Ok ((out, get_metadata out (task_exec_stats w0)),
            mkWorld (timeline w0) (S (S (ticks w0)))).
Proof.
  intros Hassoc Hnodup Hnames Hne Hstages.
  assert (∃ columns, key_column_names key = Ok columns) as [columns Hcols].
  { destruct Hstages as [|g p gs ps (w1 & m & w1' & Hr) _]; [done|].
    apply reduce_Ok_entries in Hr as (_ & columns & _ & _ & ? & _). eauto. }
  assert (∃ tables (entries : list (list (KeyType * list Z))),
    mapM table_rows (concat groups) = Ok tables
    ∧ mapM (row_entry columns aggs) (concat tables) = Ok (mjoin entries)
    ∧ partials = (λ es, reduced_block batch_format columns aggs true
                          (merge_entries aggs es)) <$> entries
    ∧ Forall (λ es, mapM (row_entry columns aggs)
                      (output_row columns aggs <$> merge_entries aggs es)
                    = Ok (merge_entries aggs es)) entries
    ∧ (groups ≠ [] → concat groups ≠ []))
    as (tables & entries & Ht & Hentries & -> & Hback & Hblocks).
  { clear Hne.
    induction Hstages as [|g p gs ps (w1 & m & w1' & Hr) _
                           (tables & entries & Ht & He & -> & Hback & _)].
    - exists [], []. by repeat split.
    - apply reduce_Ok_entries in Hr
        as (Hg & columns' & tables_g & entries_g & Hcols' & Htg & Heg & -> & _).
      rewrite Hcols in Hcols'. injection Hcols' as <-.
      exists (tables_g ++ tables), (entries_g :: entries).
      split; [by apply mapM_app_Ok|]. split; [|split; [done|split]].
      + rewrite concat_app. by apply mapM_app_Ok.
      + constructor; [|done].
        eapply partial_rows_entries; [done| |done].
        intros agg. by apply Hnames.
      + intros _. simpl. by destruct g. }
  exists (reduced_block batch_format columns aggs partial_reduce
            (merge_entries aggs (mjoin entries))).
  split.
  - rewrite <-(merge_entries_groups aggs Hassoc).
    apply (reduce_returns _ _ _ _ _ _ columns
             ((λ es, output_row columns aggs <$> merge_entries aggs es)
                <$> entries)).
    + destruct entries; [|done]. by apply Forall2_nil_inv_r in Hstages.
    + done.
    + by apply mapM_fmap_Ok.
    + clear Ht Hentries Hblocks Hstages.
      induction Hback as [|es entries Hes _ IH]; [done|].
      rewrite !fmap_cons. simpl. by apply mapM_app_Ok.
  - by apply (reduce_returns _ _ _ _ _ _ columns tables); [apply Hblocks|..].
Qed.

(** Witness of [reduce_in_stages]: the two mapper outputs of the scenario
    reduced apart from a third one, then together with it. *)
Lemma reduce_in_stages_witness :
  ∃ out,
    reduce (KStr "a") [Sum "b"; TwiceSum "b"] "pandas"
      [ TableBlock Pandas [ {[ "a" := 1; "sum(b)" := 22; "twice_sum" := 22 ]} ];
        TableBlock Pandas [ {[ "a" := 6; "sum(b)" := 20; "twice_sum" := 20 ]} ] ]
      false (clock 7)
    = Ok ((out, get_metadata out (task_exec_stats (clock 7))),
          mkWorld (timeline (clock 7)) 2)
    ∧ reduce (KStr "a") [Sum "b"; TwiceSum "b"] "pandas"
        (concat
           [ scenario_mapper_outputs;
             [ TableBlock Arrow
                 [ {[ "a" := 6; "sum(b)" := 20; "twice_sum" := 20 ]} ] ] ])
        false (clock 9)
      = Ok ((out, get_metadata out (task_exec_stats (clock 9))),
            mkWorld (timeline (clock 9)) 2).
Proof.
  apply (reduce_in_stages (KStr "a") [Sum "b"; TwiceSum "b"] "pandas"
           [ scenario_mapper_outputs;
             [ TableBlock Arrow
                 [ {[ "a" := 6; "sum(b)" := 20; "twice_sum" := 20 ]} ] ] ]).
  - repeat constructor; intros a b c; simpl; lia.
  - apply (bool_decide_unpack _). vm_compute. reflexivity.
  - intros columns agg [= <-] Hagg Hin.
    apply list_elem_of_singleton in Hin.
    apply elem_of_cons in Hagg as [->|Hagg];
      [|apply list_elem_of_singleton in Hagg as ->]; discriminate.
  - discriminate.
  - constructor; [|constructor; [|constructor]].
    + exists (clock 7), (mkBlockMetadata 1 24 (mkBlockExecStats 7)),
        (mkWorld (timeline (clock 7)) 2).
      vm_compute. reflexivity.
    + exists (clock 7), (mkBlockMetadata 1 24 (mkBlockExecStats 7)),
        (mkWorld (timeline (clock 7)) 2).
      vm_compute. reflexivity.
Defined.
